(** * themekit: the synchronization client of theme_client.go

    A shallow embedding of [ThemeClient] and of the operations it exposes
    (asset listing, single-asset fetch, theme creation, event processing,
    compiled-asset deduplication), followed by the properties the
    specification states about them. *)

From stdpp Require Import base list strings gmap pretty sorting.
From Stdlib Require Import ZArith Lia.

Open Scope Z_scope.

(** ** Strings

    Go strings are byte sequences; [string] is a list of 8-bit characters,
    [String.leb] compares them byte-wise as Go's [<=] does. *)

Definition bytes := string.

(** [strings.HasPrefix(s, prefix)]. *)
Fixpoint HasPrefix (s pre : string) {struct pre} : bool :=
  match pre, s with
  | EmptyString, _ => true
  | String _ _, EmptyString => false
  | String c pre', String d s' => if Ascii.eqb c d then HasPrefix s' pre' else false
  end.

(** [strings.Contains(s, substr)]: [substr] occurs at some offset of [s]. *)
Fixpoint Contains (s substr : string) : bool :=
  if HasPrefix s substr then true
  else match s with
       | EmptyString => false
       | String _ s' => Contains s' substr
       end.

(** The mathematical notion the specification uses. *)
Definition substring_of (a b : string) : Prop :=
  exists pre post, b = pre +:+ a +:+ post.

Definition strict_substring_of (a b : string) : Prop :=
  a <> b /\ substring_of a b.

(** ** Assets *)

(** Modelled from the spec: the [Asset] struct is declared outside
    theme_client.go; section 6 gives its wire shape
    [{"key", "attachment"?, "value"?}]. *)
Record Asset : Type := mkAsset {
  Key : string;
  Value : string;
  Attachment : string
}.

(** [Asset{}] *)
Definition zeroAsset : Asset := mkAsset "" "" "".

#[global] Instance Asset_eq_dec : EqDecision Asset.
Proof. solve_decision. Defined.

(** Modelled from the spec: [ByAsset] (the [sort.Interface] passed to
    [sort.Sort]) is declared outside theme_client.go; section 3 orders
    assets by key, lexicographically. *)
Definition ByAsset (a b : Asset) : Prop := String.leb (Key a) (Key b) = true.

#[global] Instance ByAsset_dec : RelDecision ByAsset.
Proof. intros a b. unfold ByAsset. apply _. Defined.

#[global] Instance ByAsset_total : Total ByAsset.
Proof. intros a b. apply String.leb_total. Qed.

(** [sort.Sort(ByAsset(assets))] *)
Definition sort_ByAsset (assets : list Asset) : list Asset :=
  merge_sort ByAsset assets.

(** ** Deduplication of compiled assets *)

(** The closure [isCompiled] of [ignoreCompiledAssets]. *)
Fixpoint isCompiled (a : Asset) (rest : list Asset) : bool :=
  match rest with
  | [] => false
  | other :: rest' =>
      if Contains (Key other) (Key a) then true else isCompiled a rest'
  end.

(** One iteration of [for index, asset := range assets]; the state is
    [(results, newSize)]. *)
Definition ignoreCompiledAssets_body (assets : list Asset)
    (st : list Asset * nat) (it : nat * Asset) : list Asset * nat :=
  let '(results, newSize) := st in
  let '(index, asset) := it in
  if negb (isCompiled asset (drop (index + 1) assets))
  then (<[newSize := asset]> results, (newSize + 1)%nat)
  else (results, newSize).

(** [ignoreCompiledAssets]: [results] starts as [make([]Asset, len(assets))]
    and the function returns [results[:newSize]].  The write
    [results[newSize] = asset] is always in range ([newSize <= index]), see
    [ignoreCompiledAssets_loop]. *)
Definition ignoreCompiledAssets (assets : list Asset) : list Asset :=
  let '(results, newSize) :=
    foldl (ignoreCompiledAssets_body assets)
          (replicate (length assets) zeroAsset, 0%nat)
          (imap pair assets) in
  take newSize results.

(** The same pass written by recursion on the listing: keep the head unless
    a later key contains its key. *)
Fixpoint dedup (assets : list Asset) : list Asset :=
  match assets with
  | [] => []
  | a :: rest => if isCompiled a rest then dedup rest else a :: dedup rest
  end.

(** The testable property of section 8, as it is written: of two distinct
    keys of a listing one of which is a substring of the other, the output
    holds exactly one. *)
Definition exactly_one_of_each_pair : Prop :=
  forall assets : list Asset,
    Sorted ByAsset assets -> NoDup (Key <$> assets) ->
    forall a b : Asset,
      (a ∈ assets) -> (b ∈ assets) -> a <> b ->
      substring_of (Key a) (Key b) ->
      ((a ∈ ignoreCompiledAssets assets) /\ (b ∉ ignoreCompiledAssets assets)) \/
      ((a ∉ ignoreCompiledAssets assets) /\ (b ∈ ignoreCompiledAssets assets)).

(** ** Values of theme_client.go *)

Definition CreateThemeMaxRetries : Z := 3.

Record Theme : Type := mkTheme {
  Name : string;
  Source : string;
  Role : string;
  Id : Z;
  Previewable : bool
}.

Record NonFatalNetworkError : Type := mkNonFatalNetworkError {
  Code : Z;
  Verb : string;
  Message : string
}.

(** Go's [error] interface.  [NonFatalNetworkError] is the one error type of
    the file; every other error ([errors.New], the errors of [net/http],
    [net/url], [io] and [encoding/json]) is a generic error with a message. *)
Inductive error : Type :=
  | GenericError (msg : string)
  | NonFatal (e : NonFatalNetworkError).

(** [NonFatalNetworkError.Error] and the [Error] of a generic error. *)
Definition Error (e : error) : string :=
  match e with
  | GenericError msg => msg
  | NonFatal e => pretty (Code e) +:+ " " +:+ Verb e +:+ " " +:+ Message e
  end.

Record apiResponse : Type := mkApiResponse {
  code : Z;
  body : bytes;
  err : option error
}.

Definition EventType := Z.
Definition Update : EventType := 0.
Definition Remove : EventType := 1.

Definition EventType_String (e : EventType) : string :=
  if decide (e = Update) then "Update"
  else if decide (e = Remove) then "Remove"
  else "Unknown".

(** The interface [AssetEvent]: what its two methods return. *)
Record AssetEvent : Type := mkAssetEvent {
  AssetEvent_Asset : Asset;
  AssetEvent_Type : EventType
}.

(** ** HTTP *)

Record Request : Type := mkRequest {
  Method : string;
  URL : string;
  Header : list (string * string);
  Body : option bytes
}.

(** An [*http.Response] as the file uses it: the status code and what
    [ioutil.ReadAll(resp.Body)] delivers, the bytes read and the read error
    if reading broke off. *)
Record Response : Type := mkResponse {
  StatusCode : Z;
  Response_Body : bytes;
  Response_BodyErr : option string
}.

(** [*http.Client]: [newHttpClient] only sets a proxying transport. *)
Record http_Client : Type := mkClient {
  Transport_Proxy : option string
}.

(** Modelled from the spec: [Configuration] is declared outside
    theme_client.go; section 3 lists its attributes. *)
Record Configuration : Type := mkConfiguration {
  AdminUrl : string;
  AssetPath : string;
  IgnoredFiles : list string;
  Ignores : list string;
  BucketSize : Z;
  RefillRate : Z;
  Proxy : string;
  ThemeId : Z
}.

(** [config.ThemeId = id] *)
Definition set_ThemeId (c : Configuration) (id : Z) : Configuration :=
  mkConfiguration (AdminUrl c) (AssetPath c) (IgnoredFiles c) (Ignores c)
                  (BucketSize c) (RefillRate c) (Proxy c) id.

(** Modelled from the spec: [EventFilter] is declared outside
    theme_client.go; section 4.2 makes it a pure predicate over paths. *)
Record EventFilter : Type := mkEventFilter {
  MatchesFilter : string -> bool
}.

Record ThemeClient : Type := mkThemeClient {
  config : Configuration;
  client : http_Client;
  filter : EventFilter
}.

(** Modelled from the spec: [APIThemeEvent] is declared outside
    theme_client.go; section 3 has it carry the theme id, the previewable
    flag and the outcome of the call. *)
Record APIThemeEvent : Type := mkAPIThemeEvent {
  APIThemeEvent_Code : Z;
  APIThemeEvent_ThemeId : Z;
  APIThemeEvent_Previewable : bool
}.

(** Modelled from the spec: [APIThemeEvent.Successful] is declared outside
    theme_client.go; section 4.3 classifies HTTP 2xx as success. *)
Definition Successful (e : APIThemeEvent) : bool :=
  (200 <=? APIThemeEvent_Code e) && (APIThemeEvent_Code e <? 300).

(** The interface [ThemeEvent].  [NewAPIAssetEvent] is declared outside
    theme_client.go: an asset-mutation result is kept as the arguments
    [processResponse] hands to it. *)
Inductive ThemeEvent : Type :=
  | NoOpEvent
  | NewAPIAssetEvent (r : Response + error) (event : AssetEvent)
  | ThemeEvent_of (e : APIThemeEvent).

(** Modelled from the spec: [LeakyBucket] is declared outside
    theme_client.go; section 4.4 gives it a capacity, a refill rate and an
    acquire cost. *)
Record LeakyBucket : Type := mkLeakyBucket {
  Size : Z;
  Rate : Z;
  Cost : Z
}.

(** ** Effects

    What a run of the client does to the world around it, in order. *)
Inductive Effect : Type :=
  | EDo (req : Request)                (* [t.client.Do(req)] *)
  | ENotifyError (e : error)           (* [NotifyError(err)] *)
  | ESleep (ms : Z)                    (* [time.Sleep(ms * time.Millisecond)] *)
  | EGo_logEvent (ev : APIThemeEvent). (* [go logEvent(themeEvent)] *)

(** The world: the effects so far and the heap of limiters, a
    [*LeakyBucket] being an address of that heap. *)
Record World : Type := mkWorld {
  trace : list Effect;
  buckets : gmap nat LeakyBucket
}.

(** What lies outside the file: the libraries, the remote end, and the
    declarations of the package that theme_client.go only calls. *)
Class Env : Type := mkEnv {
  (** [url.Parse]: why a URL string is rejected, if it is. *)
  url_Parse_error : string -> option string;
  (** The remote end behind [http.Client.Do]: the outcome of a call, given
      all that happened before it. *)
  client_Do : http_Client -> list Effect -> Request -> Response + string;
  (** [json.Marshal] of a [map[string]Asset] and of a [map[string]Theme]. *)
  json_Marshal_asset : gmap string Asset -> bytes;
  json_Marshal_theme : gmap string Theme -> bytes;
  (** [json.Unmarshal] into a [map[string][]Asset] and a [map[string]Asset]. *)
  json_Unmarshal_assets : bytes -> gmap string (list Asset) + string;
  json_Unmarshal_asset : bytes -> gmap string Asset + string;
  (** Modelled from the spec: [Configuration.AddHeaders] is declared outside
      theme_client.go; section 4.1 has every call carry
      configuration-derived headers. *)
  config_Headers : Configuration -> list (string * string);
  (** Modelled from the spec: [Configuration.Initialize] is declared outside
      theme_client.go; section 4.5 has the derived configuration carry the
      identifier that was set. *)
  Initialize : Configuration -> Configuration;
  Initialize_ThemeId : forall c, ThemeId (Initialize c) = ThemeId c;
  (** [NewEventFilterFromPatternsAndFiles], declared outside the file. *)
  NewEventFilterFromPatternsAndFiles : list string -> list string -> EventFilter;
  (** [NewAPIThemeEvent], declared outside the file: the theme-status
      result read off a response. *)
  NewAPIThemeEvent : Response + error -> APIThemeEvent
}.

(** ** The monad of runs *)

Inductive Outcome (A : Type) : Type :=
  | Ret (a : A) (w : World)     (* returned [a] *)
  | Panic (w : World)           (* run-time panic *)
  | OutOfFuel (w : World).      (* still looping when the fuel ran out *)
Arguments Ret {A} a w.
Arguments Panic {A} w.
Arguments OutOfFuel {A} w.

(** How a call that waits on channels ends. *)
Inductive Completion (A : Type) : Type :=
  | Returns (a : A)
  | BlocksForever.
Arguments Returns {A} a.
Arguments BlocksForever {A}.

Definition Run (A : Type) : Type := World -> Outcome A.

Definition ret {A} (a : A) : Run A := fun w => Ret a w.

Definition bind {A B} (m : Run A) (k : A -> Run B) : Run B :=
  fun w => match m w with
           | Ret a w' => k a w'
           | Panic w' => Panic w'
           | OutOfFuel w' => OutOfFuel w'
           end.

Notation "'let*' x ':=' m 'in' k" := (bind m (fun x => k))
  (at level 10, x name, m at level 100, k at level 200).
Notation "'do*' m 'in' k" := (bind m (fun _ => k))
  (at level 10, m at level 100, k at level 200).

Definition emit (e : Effect) : Run unit :=
  fun w => Ret tt (mkWorld (trace w ++ [e]) (buckets w)).

Definition panic {A} : Run A := fun w => Panic w.
Definition out_of_fuel {A} : Run A := fun w => OutOfFuel w.

(** Modelled from the spec: [NotifyError] is declared outside
    theme_client.go; section 7 has it report to a process-wide sink without
    ending the process. *)
Definition NotifyError (e : error) : Run unit := emit (ENotifyError e).

Definition time_Sleep (ms : Z) : Run unit := emit (ESleep ms).

Section Client.
Context `{Env}.

(** [http.NewRequest(method, urlStr, body)]: fails when the URL does not
    parse.  (The methods the file passes are all valid; an empty method
    means GET.) *)
Definition http_NewRequest (method urlStr : string) (body : option bytes)
  : Request + error :=
  match url_Parse_error urlStr with
  | Some msg => inr (GenericError msg)
  | None => inl (mkRequest method urlStr [] body)
  end.

Definition AddHeaders (c : Configuration) (req : Request) : Request :=
  mkRequest (Method req) (URL req) (Header req ++ config_Headers c) (Body req).

(** What [t.client.Do(req)] returns after the effects [tr]. *)
Definition answer (c : http_Client) (tr : list Effect) (req : Request)
  : Response + error :=
  match client_Do c tr req with
  | inl resp => inl resp
  | inr msg => inr (GenericError msg)
  end.

(** [t.client.Do(req)] *)
Definition Do (c : http_Client) (req : Request) : Run (Response + error) :=
  fun w => Ret (answer c (trace w) req) (mkWorld (trace w ++ [EDo req]) (buckets w)).

(** [newHttpClient]; its console output is left out. *)
Definition newHttpClient (c : Configuration) : http_Client :=
  if (0 <? Z.of_nat (String.length (Proxy c)))
  then mkClient (Some (Proxy c))
  else mkClient None.

Definition NewThemeClient (c : Configuration) : ThemeClient :=
  mkThemeClient c (newHttpClient c)
    (NewEventFilterFromPatternsAndFiles (IgnoredFiles c) (Ignores c)).

Definition GetConfiguration (t : ThemeClient) : Configuration := config t.

(** Modelled from the spec: [NewLeakyBucket] is declared outside
    theme_client.go; section 9 has it construct a fresh limiter. *)
Definition NewLeakyBucket (size rate cost : Z) : Run nat :=
  fun w =>
    let p := fresh (dom (buckets w)) in
    Ret p (mkWorld (trace w) (<[p := mkLeakyBucket size rate cost]> (buckets w))).

(** [ThemeClient.LeakyBucket] *)
Definition ThemeClient_LeakyBucket (t : ThemeClient) : Run nat :=
  NewLeakyBucket (BucketSize (config t)) (RefillRate (config t)) 1.

(** [ThemeClient.query] *)
Definition query (t : ThemeClient) (queryBuilder : string -> string)
  : Run apiResponse :=
  let path := AssetPath (config t) +:+ "?fields=key,attachment,value" in
  let path := queryBuilder path in
  match http_NewRequest "GET" path None with
  | inr e => ret (mkApiResponse 0 "" (Some e))
  | inl req =>
      let* r := Do (client t) (AddHeaders (config t) req) in
      match r with
      | inr e => ret (mkApiResponse 0 "" (Some e))
      | inl resp =>
          ret (mkApiResponse (StatusCode resp) (Response_Body resp)
                 (GenericError <$> Response_BodyErr resp))
      end
  end.

(** [ThemeClient.sendData].  When the request cannot be built the source
    notifies the error and goes on with a nil request, which [Do]
    dereferences: a run-time panic. *)
Definition sendData (t : ThemeClient) (method path : string) (body : bytes)
  : Run APIThemeEvent :=
  match http_NewRequest method path (Some body) with
  | inr e => do* NotifyError e in panic
  | inl req =>
      let* r := Do (client t) (AddHeaders (config t) req) in
      ret (NewAPIThemeEvent r)
  end.

(** [ThemeClient.request] *)
Definition request (t : ThemeClient) (event : AssetEvent) (method : string)
  : Run (Response + error) :=
  let path := AssetPath (config t) in
  let data : gmap string Asset := {[ "asset" := AssetEvent_Asset event ]} in
  let encoded := json_Marshal_asset data in
  match http_NewRequest method path (Some encoded) with
  | inr e => ret (inr e)
  | inl req => Do (client t) (AddHeaders (config t) req)
  end.

Definition processResponse (r : Response + error) (event : AssetEvent)
  : ThemeEvent :=
  NewAPIAssetEvent r event.

(** [ThemeClient.Perform] *)
Definition Perform (t : ThemeClient) (asset : AssetEvent) : Run ThemeEvent :=
  if MatchesFilter (filter t) (Key (AssetEvent_Asset asset)) then ret NoOpEvent
  else
    let event :=
      if decide (AssetEvent_Type asset = Update) then "PUT"
      else if decide (AssetEvent_Type asset = Remove) then "DELETE"
      else "" in
    let* r := request t asset event in
    ret (processResponse r asset).

(** [ThemeClient.isDoneProcessing] *)
Definition isDoneProcessing (t : ThemeClient) (themeId : Z) : Run bool :=
  let path := AdminUrl (config t) +:+ "/themes/" +:+ pretty themeId +:+ ".json" in
  let* themeEvent := sendData t "GET" path "" in
  ret (APIThemeEvent_Previewable themeEvent).

(** [ThemeClient.Asset] *)
Definition ThemeClient_Asset (t : ThemeClient) (filename : string)
  : Run (Asset * option error) :=
  let queryBuilder := fun path => path +:+ "&asset[key]=" +:+ filename in
  let* resp := query t queryBuilder in
  match err resp with
  | Some e => ret (zeroAsset, Some e)
  | None =>
      if (400 <=? code resp)
      then ret (zeroAsset,
                Some (NonFatal (mkNonFatalNetworkError (code resp) "GET" "not found")))
      else
        match json_Unmarshal_asset (body resp) with
        | inr msg => ret (zeroAsset, Some (GenericError msg))
        | inl asset => ret (default zeroAsset (asset !! "asset"), None)
        end
  end.

(** *** Theme creation *)

(** [APIThemeEvent{}], the named result [themeEvent] before any attempt. *)
Definition zeroAPIThemeEvent : APIThemeEvent := mkAPIThemeEvent 0 0 false.

(** The loop [for retries < CreateThemeMaxRetries && !ready] of the closure
    that makes the creation attempts; its state is
    [(retries, ready, themeEvent)], each iteration costs one unit of fuel. *)
Fixpoint CreateTheme_attempts (fuel : nat) (t : ThemeClient) (path : string)
    (data : bytes) (retries : Z) (ready : bool) (themeEvent : APIThemeEvent)
  : Run (Z * APIThemeEvent) :=
  if (retries <? CreateThemeMaxRetries) && negb ready then
    match fuel with
    | O => out_of_fuel
    | S fuel' =>
        let* themeEvent := sendData t "POST" path data in
        let '(retries, ready) :=
          if negb (Successful themeEvent) then (retries + 1, ready)
          else (retries, true) in
        do* emit (EGo_logEvent themeEvent) in
        CreateTheme_attempts fuel' t path data retries ready themeEvent
    end
  else ret (retries, themeEvent).

(** The closure [themeEvent := func() (themeEvent APIThemeEvent) {...}()]. *)
Definition CreateTheme_themeEvent (fuel : nat) (t : ThemeClient)
    (name zipLocation : string) : Run APIThemeEvent :=
  let path := AdminUrl (config t) +:+ "/themes.json" in
  let contents : gmap string Theme :=
    {[ "theme" := mkTheme name zipLocation "unpublished" 0 false ]} in
  let data := json_Marshal_theme contents in
  let* rt := CreateTheme_attempts fuel t path data 0 false zeroAPIThemeEvent in
  do* (if (CreateThemeMaxRetries <=? rt.1)
       then NotifyError (GenericError
              ("'" +:+ zipLocation +:+ "' cannot be retrieved from Github."))
       else ret tt) in
  ret rt.2.

(** The goroutine the caller waits for ([wg.Wait()]):
    [for !t.isDoneProcessing(id) { time.Sleep(250 * time.Millisecond) }];
    each query costs one unit of fuel. *)
Fixpoint CreateTheme_poll (fuel : nat) (t : ThemeClient) (themeId : Z)
  : Run unit :=
  match fuel with
  | O => out_of_fuel
  | S fuel' =>
      let* done := isDoneProcessing t themeId in
      if negb done
      then do* time_Sleep 250 in CreateTheme_poll fuel' t themeId
      else ret tt
  end.

(** What [CreateTheme] does once it holds [themeEvent]: the readiness poll
    and the client bound to the theme. *)
Definition CreateTheme_handshake (fuel : nat) (t : ThemeClient)
    (themeEvent : APIThemeEvent) : Run ThemeClient :=
  do* CreateTheme_poll fuel t (APIThemeEvent_ThemeId themeEvent) in
  let config := GetConfiguration t in
  let config := set_ThemeId config (APIThemeEvent_ThemeId themeEvent) in
  ret (NewThemeClient (Initialize config)).

(** [ThemeClient.CreateTheme].  The channel [log] it also returns has one
    pending sender per [EGo_logEvent] of the trace. *)
Definition CreateTheme (fuel : nat) (t : ThemeClient)
    (name zipLocation : string) : Run ThemeClient :=
  let* themeEvent := CreateTheme_themeEvent fuel t name zipLocation in
  CreateTheme_handshake fuel t themeEvent.

(** *** Event processing *)

(** What the goroutine of [Process] does on its two channels, in order. *)
Inductive Process_op : Type :=
  | SendMessage (m : ThemeEvent)   (* [messages <- t.Perform(job)] *)
  | CloseMessages                  (* [close(messages)] *)
  | SendDone (b : bool).           (* [done <- true] *)

(** [ThemeClient.Process]: the goroutine reading [events].  The input
    channel is given by the jobs it delivers and by whether its producer has
    closed it after them; on an open channel that delivers nothing more the
    goroutine stays blocked in [<-events]. *)
Fixpoint Process (t : ThemeClient) (events : list AssetEvent) (closed : bool)
  : Run (list Process_op) :=
  match events with
  | job :: events' =>
      let* m := Perform t job in
      let* ops := Process t events' closed in
      ret (SendMessage m :: ops)
  | [] =>
      if closed then ret [CloseMessages; SendDone true] else ret []
  end.

(** [Perform] on each job in turn: the results [Process] has to deliver. *)
Fixpoint Perform_each (t : ThemeClient) (events : list AssetEvent)
  : Run (list ThemeEvent) :=
  match events with
  | [] => ret []
  | job :: events' =>
      let* m := Perform t job in
      let* ms := Perform_each t events' in
      ret (m :: ms)
  end.

(** *** Listing *)

(** What the goroutine of [AssetList] does on its two channels, in program
    order; both channels are unbuffered, so a send completes only when a
    receiver takes it. *)
Inductive AssetList_op : Type :=
  | SendErr (e : error)        (* [errs <- err] *)
  | SendResult (a : Asset)     (* [results <- asset] *)
  | CloseResults               (* [close(results)] *)
  | CloseErrs.                 (* [close(errs)] *)

(** [ThemeClient.AssetList]: the goroutine. *)
Definition AssetList (t : ThemeClient) : Run (list AssetList_op) :=
  let queryBuilder := fun path : string => path in
  let* resp := query t queryBuilder in
  let reported :=
    match err resp with
    | Some e => [SendErr e]
    | None => []
    end in
  match json_Unmarshal_assets (body resp) with
  | inr msg => ret (reported ++ [SendErr (GenericError msg)])
  | inl assets =>
      let sorted := sort_ByAsset (default [] (assets !! "assets")) in
      let sanitizedAssets := ignoreCompiledAssets sorted in
      ret (reported ++ (SendResult <$> sanitizedAssets) ++ [CloseResults; CloseErrs])
  end.

(** The assets and the errors a reader of both channels receives. *)
Definition emitted_assets (ops : list AssetList_op) : list Asset :=
  omap (fun op => match op with SendResult a => Some a | _ => None end) ops.

Definition reported_errors (ops : list AssetList_op) : list error :=
  omap (fun op => match op with SendErr e => Some e | _ => None end) ops.

(** The loop of [AssetListSync], facing the operations the goroutine still
    has to do.  [AssetListSync] drops [errs] ([ch, _ := t.AssetList()]), so
    nothing ever receives from it: a goroutine that reaches [errs <- err]
    stays there, [results] is then never closed, and [<-ch] waits for ever.
    [asset, more := <-ch] takes the next result, or sees [more = false] once
    [results] is closed. *)
Fixpoint AssetListSync_loop (ops : list AssetList_op) (results : list Asset)
  : Completion (list Asset) :=
  match ops with
  | SendResult asset :: ops' => AssetListSync_loop ops' (results ++ [asset])
  | CloseResults :: _ => Returns results
  | CloseErrs :: ops' => AssetListSync_loop ops' results
  | SendErr _ :: _ => BlocksForever
  | [] => BlocksForever
  end.

(** The two parties of [AssetListSync] step by step: what the goroutine
    still has to do, whether [results] is closed, what the caller has
    received, and what it has returned, if it has. *)
Record Sync_state : Type := mkSync {
  todo : list AssetList_op;
  results_closed : bool;
  received : list Asset;
  returned : option (list Asset)
}.

(** A send on [results] meets the caller's [<-ch]; closing a channel needs
    no partner; the caller returns once it sees [results] closed.  There is
    no step for a send on [errs]: nothing receives from it. *)
Inductive Sync_step : Sync_state -> Sync_state -> Prop :=
  | Sync_result a ops acc :
      Sync_step (mkSync (SendResult a :: ops) false acc None)
                (mkSync ops false (acc ++ [a]) None)
  | Sync_close_results ops c acc r :
      Sync_step (mkSync (CloseResults :: ops) c acc r) (mkSync ops true acc r)
  | Sync_close_errs ops c acc r :
      Sync_step (mkSync (CloseErrs :: ops) c acc r) (mkSync ops c acc r)
  | Sync_return ops acc :
      Sync_step (mkSync ops true acc None) (mkSync ops true acc (Some acc)).

(** What a state is bound to end in. *)
Definition Sync_fate (s : Sync_state) : Completion (list Asset) :=
  match returned s with
  | Some l => Returns l
  | None => if results_closed s then Returns (received s)
            else AssetListSync_loop (todo s) (received s)
  end.

(** [ThemeClient.AssetListSync] *)
Definition AssetListSync (t : ThemeClient) : Run (Completion (list Asset)) :=
  let* ops := AssetList t in
  ret (AssetListSync_loop ops []).

End Client.

(** Two accesses to the limiter of one client, one after the other. *)
Definition LeakyBucket_twice `{Env} (t : ThemeClient) : Run (nat * nat) :=
  let* p := ThemeClient_LeakyBucket t in
  let* q := ThemeClient_LeakyBucket t in
  ret (p, q).

(** ** Concrete environments

    Scenarios to run the client in: a remote end given as a function, and
    library functions that behave as the real ones do on the few inputs the
    scenarios feed them. *)

Definition is_hex (c : Ascii.ascii) : bool :=
  let n := Ascii.nat_of_ascii c in
  ((48 <=? n) && (n <=? 57) || (65 <=? n) && (n <=? 70)
   || (97 <=? n) && (n <=? 102))%nat.

(** The escape check [net/url] makes on a path: a '%' is followed by two
    hexadecimal digits.  It is the one check the [url.Parse] of the
    scenarios makes. *)
Fixpoint validEscapes (s : string) : bool :=
  match s with
  | EmptyString => true
  | String c s' =>
      (if Ascii.eqb c (Ascii.ascii_of_nat 37)
       then match s' with
            | String a (String b _) => is_hex a && is_hex b
            | _ => false
            end
       else true) && validEscapes s'
  end.

(** The double quote, to write JSON text. *)
Definition dq : string := String (Ascii.ascii_of_nat 34) EmptyString.

(** The listing [{"assets":[{"key":"a.css"}]}]. *)
Definition listing_body : bytes :=
  "{" +:+ dq +:+ "assets" +:+ dq +:+ ":[{" +:+ dq +:+ "key" +:+ dq +:+ ":"
  +:+ dq +:+ "a.css" +:+ dq +:+ "}]}".

(** The empty listing [{"assets":[]}]. *)
Definition empty_listing_body : bytes :=
  "{" +:+ dq +:+ "assets" +:+ dq +:+ ":[]}".

Definition scenario_Unmarshal_assets (b : bytes)
  : gmap string (list Asset) + string :=
  if decide (b = listing_body) then inl {[ "assets" := [mkAsset "a.css" "" ""] ]}
  else if decide (b = empty_listing_body) then inl {[ "assets" := [] ]}
  else inr "unexpected end of JSON input".

(** A theme-status result read off a response: the status code, and a body
    of the form [<id>] or [<id> previewable]. *)
Definition scenario_NewAPIThemeEvent (r : Response + error) : APIThemeEvent :=
  match r with
  | inl resp =>
      mkAPIThemeEvent (StatusCode resp)
        (if HasPrefix (Response_Body resp) "7" then 7 else 0)
        (Contains (Response_Body resp) "previewable")
  | inr _ => zeroAPIThemeEvent
  end.

Definition scenario (server : list Effect -> Request -> Response + string)
  : Env :=
  {| url_Parse_error :=
       fun s => if validEscapes s then None else Some "invalid URL escape";
     client_Do := fun _ => server;
     json_Marshal_asset :=
       fun m => "asset " +:+ Key (default zeroAsset (m !! "asset"));
     json_Marshal_theme :=
       fun m => "theme " +:+ Name (default (mkTheme "" "" "" 0 false) (m !! "theme"));
     json_Unmarshal_assets := scenario_Unmarshal_assets;
     json_Unmarshal_asset := fun _ => inr "unexpected end of JSON input";
     config_Headers := fun _ => [("X-Shopify-Access-Token", "token")];
     Initialize := fun c => c;
     Initialize_ThemeId := fun c => eq_refl;
     NewEventFilterFromPatternsAndFiles :=
       fun files _ => mkEventFilter (fun path => bool_decide (path ∈ files));
     NewAPIThemeEvent := scenario_NewAPIThemeEvent |}.

(** A shop at [domain], with the live theme as its target. *)
Definition shop (domain : string) : Configuration :=
  mkConfiguration ("https://" +:+ domain +:+ "/admin")
                  ("https://" +:+ domain +:+ "/admin/assets.json")
                  ["config.yml"] [] 40 2 "" 0.

Definition shop_client (domain : string) : ThemeClient :=
  mkThemeClient (shop domain) (mkClient None)
    (mkEventFilter (fun path => bool_decide (path ∈ ["config.yml"]))).

(** A domain with a broken escape: [url.Parse] rejects every URL of the
    shop. *)
Definition bad_domain : string := "shop.example/%".

Definition fresh_world : World := mkWorld [] ∅.

(** A remote end that answers every call with [code] and [body]. *)
Definition always (code : Z) (body : bytes)
  : list Effect -> Request -> Response + string :=
  fun _ _ => inl (mkResponse code body None).

(** A remote end that cannot be reached. *)
Definition unreachable : list Effect -> Request -> Response + string :=
  fun _ _ => inr "dial tcp: connection refused".

(** A remote end whose listing arrives whole, after which the connection
    breaks before the announced length is reached. *)
Definition truncated : list Effect -> Request -> Response + string :=
  fun _ _ => inl (mkResponse 200 listing_body (Some "unexpected EOF")).

(** The calls a trace holds, in order. *)
Definition calls (tr : list Effect) : list Request :=
  omap (fun e => match e with EDo req => Some req | _ => None end) tr.

(** A remote end that creates theme 7 and reports it previewable from the
    third status query on. *)
Definition warming_up : list Effect -> Request -> Response + string :=
  fun tr req =>
    if decide (Method req = "POST") then inl (mkResponse 201 "7" None)
    else if (2 <=? length (base.filter (fun r => Method r = "GET") (calls tr)))%nat
         then inl (mkResponse 200 "7 previewable" None)
         else inl (mkResponse 200 "7" None).


(** [k] rounds of the readiness poll that found the theme not previewable:
    a status query and a sleep of 250 ms each. *)
Definition polls (req : Request) (k : nat) : list Effect :=
  concat (replicate k [EDo req; ESleep 250]).

(** Events of the scenarios. *)
Definition style_update : AssetEvent :=
  mkAssetEvent (mkAsset "assets/style.css" "body {}" "") Update.

Definition style_remove : AssetEvent :=
  mkAssetEvent (mkAsset "assets/style.css" "" "") Remove.

Definition config_update : AssetEvent :=
  mkAssetEvent (mkAsset "config.yml" "password: x" "") Update.


(** ** What [Perform] sends *)

(** The verb [Perform] picks for an event type; the string stays empty for
    a type that is neither [Update] nor [Remove]. *)
Definition Perform_verb (e : EventType) : string :=
  if decide (e = Update) then "PUT"
  else if decide (e = Remove) then "DELETE"
  else "".

(** The request [Perform] hands to [Do] for an event it does not ignore. *)
Definition Perform_request `{Env} (t : ThemeClient) (asset : AssetEvent) : Request :=
  AddHeaders (config t)
    (mkRequest (Perform_verb (AssetEvent_Type asset)) (AssetPath (config t)) []
       (Some (json_Marshal_asset {[ "asset" := AssetEvent_Asset asset ]}))).

(** The events of a stream that the filter of [t] lets through. *)
Definition dispatched (t : ThemeClient) (events : list AssetEvent)
  : list AssetEvent :=
  base.filter
    (fun e => MatchesFilter (filter t) (Key (AssetEvent_Asset e)) = false) events.

(** The effects of a run of creation attempts that got the answers
    [events]: a call and a logged event each. *)
Definition attempts_trace (req : Request) (events : list APIThemeEvent)
  : list Effect :=
  concat ((fun ev => [EDo req; EGo_logEvent ev]) <$> events).

(** The notification of exhausted retries. *)
Definition retries_exhausted (zipLocation : string) : Effect :=
  ENotifyError (GenericError
    ("'" +:+ zipLocation +:+ "' cannot be retrieved from Github.")).

(** ** Console colours

    The text helpers that follow theme_client.go:
    [fmt.Sprintf("\033[31m%s\033[0m", s)] and its siblings. *)

Definition ESC : string := String (Ascii.ascii_of_nat 27) EmptyString.

Definition RedText (s : string) : string := ESC +:+ "[31m" +:+ s +:+ ESC +:+ "[0m".

Definition YellowText (s : string) : string := ESC +:+ "[33m" +:+ s +:+ ESC +:+ "[0m".

Definition BlueText (s : string) : string := ESC +:+ "[34m" +:+ s +:+ ESC +:+ "[0m".

(** ** Local assets *)

(** The file system behind [LocalAssets]: [filepath.Separator], what
    [filepath.Glob] lists for a pattern (its error is dropped by the
    source), and [LoadAsset], which is declared outside theme_client.go. *)
Class FileSystem : Type := mkFileSystem {
  Separator : Ascii.ascii;
  filepath_Glob : string -> list string;
  LoadAsset : string -> string -> Asset + string
}.

(** Left to right, drop each occurrence of [old] that does not overlap the
    one dropped before it; [skip] counts the bytes of an occurrence still to
    pass over. *)
Fixpoint remove_from (old s : string) (skip : nat) : string :=
  match s with
  | EmptyString => EmptyString
  | String c s' =>
      match skip with
      | S k => remove_from old s' k
      | O => if HasPrefix s old
             then remove_from old s' (String.length old - 1)
             else String c (remove_from old s' 0)
      end
  end.

(** [strings.Replace(s, old, "", -1)]: with an empty [old] nothing is
    removed. *)
Definition strings_Replace_removing (s old : string) : string :=
  match old with
  | EmptyString => s
  | String _ _ => remove_from old s 0
  end.

(** [ThemeClient.LocalAssets] *)
Definition LocalAssets `{FileSystem} (t : ThemeClient) (dir : string) : list Asset :=
  let dir := dir +:+ String Separator EmptyString in
  let glob := dir +:+ "**" +:+ String Separator EmptyString +:+ "*" in
  let files := filepath_Glob glob in
  foldl (fun assets file =>
           if negb (MatchesFilter (filter t) file) then
             let assetKey := strings_Replace_removing file dir in
             match LoadAsset dir assetKey with
             | inl asset => assets ++ [asset]
             | inr _ => assets
             end
           else assets)
        [] files.

(** ** Bootstrap: picking the archive (commands/bootstrap.go) *)

Definition MasterBranch : string := "master".
Definition LatestRelease : string := "latest".
Definition ThemeZipRoot : string := "https://github.com/Shopify/Timber/archive/".
Definition TimberFeedPath : string := "https://github.com/Shopify/Timber/releases.atom".

(** [themekit.Entry] and [themekit.Feed] are declared outside the files at
    hand; these are the fields bootstrap.go reads. *)
Record Entry : Type := mkEntry { Title : string }.
Record Feed : Type := mkFeed { Entries : list Entry }.

(** [themekit.LoadFeed] and [Feed.LatestEntry], declared outside the files
    at hand. *)
Class FeedReader : Type := mkFeedReader {
  LoadFeed : Response -> Feed + string;
  LatestEntry : Feed -> Entry
}.

Definition zipPath (version : string) : string :=
  ThemeZipRoot +:+ version +:+ ".zip".

(** The line feed. *)
Definition LF : string := String (Ascii.ascii_of_nat 10) EmptyString.

(** [buildInvalidVersionError]: the writes to the buffer, in order. *)
Definition buildInvalidVersionError (feed : Feed) (version : string) : error :=
  let buff := EmptyString in
  let buff := buff +:+ RedText ("Invalid Timber Version: " +:+ version) in
  let buff := buff +:+ (LF +:+ "Available Versions Are:") in
  let buff := buff +:+ (LF +:+ "  - master") in
  let buff := buff +:+ (LF +:+ "  - latest") in
  let buff := foldl (fun b entry => b +:+ (LF +:+ "  - " +:+ Title entry))
                    buff (Entries feed) in
  GenericError buff.

(** The loop [for _, entry := range feed.Entries] of [findReleaseWith]. *)
Fixpoint findReleaseWith_loop (entries : list Entry) (version : string)
  : option Entry :=
  match entries with
  | [] => None
  | entry :: entries' =>
      if decide (Title entry = version) then Some entry
      else findReleaseWith_loop entries' version
  end.

Definition findReleaseWith `{FeedReader} (feed : Feed) (version : string)
  : Entry * option error :=
  if decide (version = LatestRelease) then (LatestEntry feed, None)
  else match findReleaseWith_loop (Entries feed) version with
       | Some entry => (entry, None)
       | None => (mkEntry "Invalid Feed", Some (buildInvalidVersionError feed version))
       end.

(** [http.Get(url)]: a GET by the default client. *)
Definition http_Get `{Env} (url : string) : Run (Response + error) :=
  match http_NewRequest "GET" url None with
  | inr e => ret (inr e)
  | inl req => Do (mkClient None) req
  end.

Definition downloadAtomFeed `{Env} `{FeedReader} : Run (Feed * option error) :=
  let* r := http_Get TimberFeedPath in
  match r with
  | inr e => ret (mkFeed [], Some e)
  | inl resp =>
      match LoadFeed resp with
      | inr msg => ret (mkFeed [], Some (GenericError msg))
      | inl feed => ret (feed, None)
      end
  end.

Definition zipPathForVersion `{Env} `{FeedReader} (version : string)
  : Run (string * option error) :=
  if decide (version = MasterBranch) then ret (zipPath MasterBranch, None)
  else
    let* fe := downloadAtomFeed in
    match fe.2 with
    | Some e => ret (EmptyString, Some e)
    | None =>
        let ee := findReleaseWith fe.1 version in
        match ee.2 with
        | Some e => ret (EmptyString, Some e)
        | None => ret (zipPath (Title ee.1), None)
        end
    end.

(** ** Bootstrap: the command (commands/bootstrap.go) *)

Record BootstrapOptions : Type := mkBootstrapOptions {
  Client : ThemeClient;
  Version : string;
  Directory : string;
  Environment : string;
  Prefix : string;
  SetThemeId : bool
}.

(** A [chan bool] as its reader meets it: it delivers a value, or it is
    closed with nothing in it, or nothing ever comes. *)
Inductive Chan_bool : Type :=
  | Delivers (b : bool)
  | ClosedEmpty
  | Silent.

(** The calls of [doBootstrap] into the rest of the package and into [os],
    none of them in the files at hand; each is recorded with its
    arguments. *)
Inductive Shell_effect : Type :=
  | SChdir (dir : string)                (* [os.Chdir(dir)] *)
  | SMergeEvents                         (* [mergeEvents(options.getEventLog(), ...)] *)
  | SAddConfiguration (dir env : string) (c : Configuration)
  | SDownload (c : ThemeClient).         (* [Download(downloadOptions)] *)

(** The process around the client: the world of the client, the working
    directory, and the calls made so far. *)
Record Session : Type := mkSession {
  world : World;
  cwd : string;
  shell : list Shell_effect
}.

(** What [os.Chdir] and [Download] do: whether a directory can be entered,
    and the channel [Download] hands back. *)
Class Shell : Type := mkShell {
  chdir_ok : string -> bool;
  Download : ThemeClient -> Chan_bool
}.

Inductive Cmd_outcome (A : Type) : Type :=
  | CRet (a : A) (s : Session)
  | CPanic (s : Session)
  | COutOfFuel (s : Session).
Arguments CRet {A} a s.
Arguments CPanic {A} s.
Arguments COutOfFuel {A} s.

Definition Cmd (A : Type) : Type := Session -> Cmd_outcome A.

Definition cret {A} (a : A) : Cmd A := fun s => CRet a s.

Definition cbind {A B} (m : Cmd A) (k : A -> Cmd B) : Cmd B :=
  fun s => match m s with
           | CRet a s' => k a s'
           | CPanic s' => CPanic s'
           | COutOfFuel s' => COutOfFuel s'
           end.

(** A run of the client inside the session. *)
Definition in_world {A} (m : Run A) : Cmd A :=
  fun s => match m (world s) with
           | Ret a w => CRet a (mkSession w (cwd s) (shell s))
           | Panic w => CPanic (mkSession w (cwd s) (shell s))
           | OutOfFuel w => COutOfFuel (mkSession w (cwd s) (shell s))
           end.

Definition record (e : Shell_effect) : Cmd unit :=
  fun s => CRet tt (mkSession (world s) (cwd s) (shell s ++ [e])).

(** [os.Getwd()] *)
Definition os_Getwd : Cmd string := fun s => CRet (cwd s) s.

(** [os.Chdir(dir)]; the source drops its error. *)
Definition os_Chdir `{Shell} (dir : string) : Cmd unit :=
  fun s => CRet tt (mkSession (world s) (if chdir_ok dir then dir else cwd s)
                              (shell s ++ [SChdir dir])).

(** The name [doBootstrap] gives the theme. *)
Definition Bootstrap_name (options : BootstrapOptions) : string :=
  let name := "Timber-" +:+ Version options in
  if (0 <? Z.of_nat (String.length (Prefix options)))
  then Prefix options +:+ "-" +:+ name
  else name.

(** [doBootstrap] *)
Definition doBootstrap `{Env} `{FeedReader} `{Shell} (fuel : nat)
    (options : BootstrapOptions) : Cmd Chan_bool :=
  cbind os_Getwd (fun pwd =>
  cbind (if decide (pwd <> Directory options) then os_Chdir (Directory options)
         else cret tt) (fun _ =>
  cbind (in_world (zipPathForVersion (Version options))) (fun ze =>
  match ze.2 with
  | Some e =>
      cbind (in_world (NotifyError e)) (fun _ => cret ClosedEmpty)
  | None =>
      let name := Bootstrap_name options in
      cbind (in_world (CreateTheme fuel (Client options) name ze.1))
            (fun clientForNewTheme =>
      cbind (record SMergeEvents) (fun _ =>
      cbind (if SetThemeId options
             then record (SAddConfiguration (Directory options) (Environment options)
                            (GetConfiguration clientForNewTheme))
             else cret tt) (fun _ =>
      cbind (os_Chdir pwd) (fun _ =>
      cbind (record (SDownload clientForNewTheme)) (fun _ =>
      cret (Download clientForNewTheme))))))
  end))).

(** What the reader of [done] meets after [done <- <-doneCh]: a receive
    from a closed channel yields the zero value. *)
Definition forwarded (doneCh : Chan_bool) : Chan_bool :=
  match doneCh with
  | Delivers b => Delivers b
  | ClosedEmpty => Delivers false
  | Silent => Silent
  end.

(** [Bootstrap]: its goroutine. *)
Definition Bootstrap `{Env} `{FeedReader} `{Shell} (fuel : nat)
    (options : BootstrapOptions) : Cmd Chan_bool :=
  cbind (doBootstrap fuel options) (fun doneCh => cret (forwarded doneCh)).

(** Scenarios for the command: a feed with two releases whatever the
    response holds, directories that can all be entered, and a download
    that signals success. *)
Definition two_releases : FeedReader :=
  {| LoadFeed := fun _ => inl (mkFeed [mkEntry "v2.0"; mkEntry "v1.0"]);
     LatestEntry := fun feed => default (mkEntry "") (head (Entries feed)) |}.

Definition obliging_shell : Shell :=
  {| chdir_ok := fun _ => true; Download := fun _ => Delivers true |}.

Definition bootstrap_of (version pre : string) : BootstrapOptions :=
  mkBootstrapOptions (shop_client "shop.example") version "/themes/shop"
                     "development" pre true.

Definition home_session : Session := mkSession fresh_world "/home" [].

(** ** Properties of the string functions *)

Lemma append_String c s t : String c s +:+ t = String c (s +:+ t).
Proof. reflexivity. Qed.

Lemma append_empty s : "" +:+ s = s.
Proof. reflexivity. Qed.

Lemma HasPrefix_spec s pre :
  HasPrefix s pre = true <-> exists post, s = pre +:+ post.
Proof.
  revert s. induction pre as [|c pre IH]; intros s; simpl.
  - split; [intros _; by exists s | done].
  - destruct s as [|d s].
    + split; [done | intros [post Hp]; discriminate Hp].
    + destruct (Ascii.eqb_spec c d) as [->|Hne].
      * rewrite IH. split.
        -- intros [post ->]. by exists post.
        -- intros [post Hp]. rewrite append_String in Hp.
           injection Hp as ->. by exists post.
      * split; [done | intros [post Hp]].
        rewrite append_String in Hp. congruence.
Qed.

Lemma Contains_spec s substr :
  Contains s substr = true <-> substring_of substr s.
Proof.
  unfold substring_of. induction s as [|d s IH]; simpl.
  - destruct (HasPrefix "" substr) eqn:Hp.
    + apply HasPrefix_spec in Hp as [post Hp]. split; [|done].
      intros _. exists "", post. done.
    + split; [done|]. intros (pre & post & Hs).
      destruct pre; [|discriminate Hs]. rewrite append_empty in Hs.
      assert (HasPrefix "" substr = true) as Hc
        by (apply HasPrefix_spec; by exists post).
      congruence.
  - destruct (HasPrefix (String d s) substr) eqn:Hp.
    + apply HasPrefix_spec in Hp as [post Hp]. split; [|done].
      intros _. exists "", post. done.
    + rewrite IH. split.
      * intros (pre & post & ->). by exists (String d pre), post.
      * intros (pre & post & Hs). destruct pre as [|c pre].
        -- rewrite append_empty in Hs.
           assert (HasPrefix (String d s) substr = true) as Hc
             by (apply HasPrefix_spec; by exists post).
           congruence.
        -- rewrite append_String in Hs. injection Hs as _ ->.
           by exists pre, post.
Qed.

Lemma isCompiled_spec a rest :
  isCompiled a rest = true <->
  exists j b, rest !! j = Some b /\ substring_of (Key a) (Key b).
Proof.
  induction rest as [|o rest IH]; simpl.
  - split; [done | intros (j & b & Hj & _); by destruct j].
  - destruct (Contains (Key o) (Key a)) eqn:Hc.
    + split; [|done]. intros _. exists 0%nat, o. split; [done|].
      by apply Contains_spec.
    + rewrite IH. split.
      * intros (j & b & Hj & Hs). by exists (S j), b.
      * intros (j & b & Hj & Hs). destruct j as [|j]; simpl in Hj.
        -- injection Hj as ->. apply Contains_spec in Hs. congruence.
        -- by exists j, b.
Qed.

(** ** The deduplication loop *)

(** Loop invariant of [ignoreCompiledAssets]: after the indices of [pre]
    have been visited, [results[:newSize]] holds what was kept; visiting the
    remaining indices appends [dedup suf]. *)
Lemma ignoreCompiledAssets_loop (suf pre results : list Asset) (newSize : nat) :
  length results = (length pre + length suf)%nat ->
  (newSize <= length pre)%nat ->
  let st := foldl (ignoreCompiledAssets_body (pre ++ suf)) (results, newSize)
                  (imap (fun i a => ((length pre + i)%nat, a)) suf) in
  take st.2 st.1 = take newSize results ++ dedup suf.
Proof.
  revert pre results newSize.
  induction suf as [|a suf IH]; intros pre results newSize Hlen Hn; simpl.
  - by rewrite app_nil_r.
  - replace (drop (length pre + 0 + 1) (pre ++ a :: suf)) with suf; last first.
    { rewrite (assoc_L (++) pre [a] suf : pre ++ a :: suf = (pre ++ [a]) ++ suf).
      rewrite drop_app_length'; [done|]. rewrite length_app. simpl. lia. }
    assert (Hext : imap ((fun i a0 => ((length pre + i)%nat, a0)) ∘ S) suf =
                   imap (fun i a0 => ((length (pre ++ [a]) + i)%nat, a0)) suf).
    { apply imap_ext. intros i x _. simpl. rewrite length_app. simpl.
      f_equal. lia. }
    rewrite Hext.
    rewrite (assoc_L (++) pre [a] suf : pre ++ a :: suf = (pre ++ [a]) ++ suf).
    simpl in Hlen.
    destruct (isCompiled a suf); simpl.
    + rewrite IH; [done | rewrite length_app; simpl; lia
                  | rewrite length_app; simpl; lia].
    + rewrite IH.
      * replace (newSize + 1)%nat with (S newSize) by lia.
        rewrite (take_S_r _ _ a).
        -- rewrite take_insert_ge by lia. by rewrite <- (assoc_L (++)).
        -- apply list_lookup_insert_eq. lia.
      * rewrite length_insert, length_app. simpl. lia.
      * rewrite length_app. simpl. lia.
Qed.

(** The loop of the source computes [dedup]. *)
Lemma ignoreCompiledAssets_dedup (assets : list Asset) :
  ignoreCompiledAssets assets = dedup assets.
Proof.
  unfold ignoreCompiledAssets.
  pose proof (ignoreCompiledAssets_loop assets [] (replicate (length assets) zeroAsset) 0) as H.
  simpl in H. destruct (foldl _ _ _) as [results newSize].
  apply H; [by rewrite length_replicate | lia].
Qed.

Lemma elem_of_dedup (l : list Asset) (a : Asset) :
  a ∈ dedup l <->
  exists i, l !! i = Some a /\ isCompiled a (drop (S i) l) = false.
Proof.
  induction l as [|x l IH]; simpl.
  - split; [by intros ?%elem_of_nil | by intros (i & ? & _)].
  - destruct (isCompiled x l) eqn:Hx.
    + rewrite IH. split.
      * intros (i & Hi & Hc). by exists (S i).
      * intros ([|i] & Hi & Hc); simpl in *.
        -- injection Hi as ->. rewrite drop_0 in Hc. congruence.
        -- by exists i.
    + rewrite elem_of_cons, IH. split.
      * intros [->|(i & Hi & Hc)].
        -- exists 0%nat. by rewrite drop_0.
        -- by exists (S i).
      * intros ([|i] & Hi & Hc); simpl in *.
        -- injection Hi as ->. by left.
        -- right. by exists i.
Qed.

Lemma dedup_sublist (l : list Asset) : dedup l `sublist_of` l.
Proof.
  induction l as [|x l IH]; simpl; [constructor|].
  destruct (isCompiled x l); by constructor.
Qed.

(** The pass of the source is the forward filter: an asset stays unless the
    key of a later asset contains its key. *)
Theorem ignoreCompiledAssets_is_forward_filter (assets : list Asset) :
  ignoreCompiledAssets assets = dedup assets /\
  forall a : Asset,
    (a ∈ ignoreCompiledAssets assets) <->
    exists i, assets !! i = Some a /\ isCompiled a (drop (S i) assets) = false.
Proof.
  rewrite ignoreCompiledAssets_dedup. split; [done|]. apply elem_of_dedup.
Qed.

(** With pairwise-distinct keys an asset sits at one index only. *)
Lemma distinct_keys_index (l : list Asset) (i j : nat) (a b : Asset) :
  NoDup (Key <$> l) -> l !! i = Some a -> l !! j = Some b ->
  Key a = Key b -> i = j.
Proof.
  intros Hnd Hi Hj Hk.
  eapply NoDup_lookup; [exact Hnd | |].
  - rewrite list_lookup_fmap, Hi. reflexivity.
  - rewrite list_lookup_fmap, Hj. simpl. by rewrite Hk.
Qed.

(** An asset is dropped exactly when a later key contains its key. *)
Lemma dedup_keeps_iff (l : list Asset) (i : nat) (a : Asset) :
  NoDup (Key <$> l) -> l !! i = Some a ->
  a ∈ dedup l <->
  ~ exists j b, (i < j)%nat /\ l !! j = Some b /\
                strict_substring_of (Key a) (Key b).
Proof.
  intros Hnd Hi. rewrite elem_of_dedup. split.
  - intros (i' & Hi' & Hc) (j & b & Hij & Hj & _ & Hs).
    assert (i' = i) as -> by (eapply distinct_keys_index; eauto).
    assert (isCompiled a (drop (S i) l) = true) as Ht; [|congruence].
    apply isCompiled_spec. exists (j - S i)%nat, b. split; [|done].
    rewrite lookup_drop. by replace (S i + (j - S i))%nat with j by lia.
  - intros Hno. exists i. split; [done|].
    destruct (isCompiled a (drop (S i) l)) eqn:Hc; [|done].
    exfalso. apply Hno. apply isCompiled_spec in Hc as (j & b & Hj & Hs).
    rewrite lookup_drop in Hj. exists (S i + j)%nat, b.
    split; [lia|]. split; [done|]. split; [|done].
    intros Hk. assert (i = (S i + j)%nat) by (eapply distinct_keys_index; eauto).
    lia.
Qed.

(** ** C1: what the deduplication pass suppresses *)

(** C1 (amended).  On a listing sorted ascending by key with pairwise
    distinct keys, the pass drops exactly the assets whose key is a strict
    substring of the key of a later asset; so of two keys A before B with A
    a substring of B, A is never in the output (the output never holds
    both); and the retained assets keep their relative order. *)
Theorem ignoreCompiledAssets_forward_pass (assets : list Asset) :
  Sorted ByAsset assets ->
  NoDup (Key <$> assets) ->
  (forall (i : nat) (a : Asset), assets !! i = Some a ->
     (a ∈ ignoreCompiledAssets assets) <->
     ~ exists (j : nat) (b : Asset),
         (i < j)%nat /\ assets !! j = Some b /\
         strict_substring_of (Key a) (Key b)) /\
  (forall (i j : nat) (a b : Asset),
     (i < j)%nat -> assets !! i = Some a -> assets !! j = Some b ->
     substring_of (Key a) (Key b) ->
     a ∉ ignoreCompiledAssets assets) /\
  ignoreCompiledAssets assets `sublist_of` assets.
Proof.
  intros _ Hnd. rewrite ignoreCompiledAssets_dedup.
  split; [|split].
  - intros i a Hi. by apply dedup_keeps_iff.
  - intros i j a b Hij Hi Hj Hs Hin.
    apply (dedup_keeps_iff assets i a Hnd Hi) in Hin. apply Hin.
    exists j, b. split; [done|]. split; [done|]. split; [|done].
    intros Hk. assert (i = j) by (eapply distinct_keys_index; eauto). lia.
  - apply dedup_sublist.
Qed.

(** The listing ["app"; "app.min"] of section 8. *)
Lemma ignoreCompiledAssets_forward_pass_witness :
  (forall (i : nat) (a : Asset),
     [mkAsset "app" "" ""; mkAsset "app.min" "" ""] !! i = Some a ->
     (a ∈ ignoreCompiledAssets [mkAsset "app" "" ""; mkAsset "app.min" "" ""]) <->
     ~ exists (j : nat) (b : Asset),
         (i < j)%nat /\
         [mkAsset "app" "" ""; mkAsset "app.min" "" ""] !! j = Some b /\
         strict_substring_of (Key a) (Key b)) /\
  (forall (i j : nat) (a b : Asset),
     (i < j)%nat ->
     [mkAsset "app" "" ""; mkAsset "app.min" "" ""] !! i = Some a ->
     [mkAsset "app" "" ""; mkAsset "app.min" "" ""] !! j = Some b ->
     substring_of (Key a) (Key b) ->
     a ∉ ignoreCompiledAssets [mkAsset "app" "" ""; mkAsset "app.min" "" ""]) /\
  ignoreCompiledAssets [mkAsset "app" "" ""; mkAsset "app.min" "" ""]
    `sublist_of` [mkAsset "app" "" ""; mkAsset "app.min" "" ""].
Proof.
  apply (ignoreCompiledAssets_forward_pass
           [mkAsset "app" "" ""; mkAsset "app.min" "" ""]).
  - repeat constructor.
  - apply (bool_decide_unpack _). vm_compute. reflexivity.
Defined.

Example ignoreCompiledAssets_app :
  ignoreCompiledAssets [mkAsset "app" "" ""; mkAsset "app.min" "" ""]
  = [mkAsset "app.min" "" ""].
Proof. reflexivity. Qed.

(** The first listing of section 8: "a.css" occurs inside
    "assets/a.css.liquid", so it is dropped. *)
Example ignoreCompiledAssets_css :
  ignoreCompiledAssets
    [mkAsset "a.css" "" ""; mkAsset "a.scss" "" "";
     mkAsset "assets/a.css.liquid" "" ""]
  = [mkAsset "a.scss" "" ""; mkAsset "assets/a.css.liquid" "" ""].
Proof. reflexivity. Qed.

(** A chain: of the pair "a", "ab" nothing is left. *)
Example ignoreCompiledAssets_chain :
  ignoreCompiledAssets
    [mkAsset "a" "" ""; mkAsset "ab" "" ""; mkAsset "abc" "" ""]
  = [mkAsset "abc" "" ""].
Proof. reflexivity. Qed.

(** C1 as stated fails: in the sorted listing ["ab"; "b"] the key "b" is a
    substring of "ab" and sorts after it, so the forward pass keeps both. *)
Lemma ignoreCompiledAssets_keeps_both :
  Sorted ByAsset [mkAsset "ab" "" ""; mkAsset "b" "" ""] /\
  NoDup (Key <$> [mkAsset "ab" "" ""; mkAsset "b" "" ""]) /\
  substring_of "b" "ab" /\
  ignoreCompiledAssets [mkAsset "ab" "" ""; mkAsset "b" "" ""]
  = [mkAsset "ab" "" ""; mkAsset "b" "" ""] /\
  ~ exactly_one_of_each_pair.
Proof.
  assert (Hs : Sorted ByAsset [mkAsset "ab" "" ""; mkAsset "b" "" ""])
    by repeat constructor.
  assert (Hn : NoDup (Key <$> [mkAsset "ab" "" ""; mkAsset "b" "" ""]))
    by (apply (bool_decide_unpack _); vm_compute; reflexivity).
  assert (Hsub : substring_of "b" "ab") by (by exists "a", "").
  split; [done|]. split; [done|]. split; [done|]. split; [reflexivity|].
  intros Hclaim.
  destruct (Hclaim _ Hs Hn (mkAsset "b" "" "") (mkAsset "ab" "" "")) as [[_ Hno]|[Hno _]].
  - set_solver.
  - set_solver.
  - discriminate.
  - exact Hsub.
  - apply Hno. change (ignoreCompiledAssets [mkAsset "ab" "" ""; mkAsset "b" "" ""])
      with [mkAsset "ab" "" ""; mkAsset "b" "" ""]. set_solver.
  - apply Hno. change (ignoreCompiledAssets [mkAsset "ab" "" ""; mkAsset "b" "" ""])
      with [mkAsset "ab" "" ""; mkAsset "b" "" ""]. set_solver.
Qed.

(** ** Single-event dispatch *)

Section Dispatch.
Context `{Env}.

Lemma http_NewRequest_ok (method urlStr : string) (body : option bytes) :
  url_Parse_error urlStr = None ->
  http_NewRequest method urlStr body = inl (mkRequest method urlStr [] body).
Proof. intros Hu. unfold http_NewRequest. by rewrite Hu. Qed.

Lemma http_NewRequest_fails (method urlStr msg : string) (body : option bytes) :
  url_Parse_error urlStr = Some msg ->
  http_NewRequest method urlStr body = inr (GenericError msg).
Proof. intros Hu. unfold http_NewRequest. by rewrite Hu. Qed.

(** C5.  An event whose asset key the ignore filter matches yields the
    no-op result at once: the world is left as it was, so no call was made. *)
Theorem Perform_ignored (t : ThemeClient) (asset : AssetEvent) (w : World) :
  MatchesFilter (filter t) (Key (AssetEvent_Asset asset)) = true ->
  Perform t asset w = Ret NoOpEvent w.
Proof. intros Hm. unfold Perform. by rewrite Hm. Qed.

(** [Perform] returns whatever the event and the remote end are. *)
Lemma Perform_returns (t : ThemeClient) (asset : AssetEvent) (w : World) :
  exists m w', Perform t asset w = Ret m w' /\ buckets w' = buckets w.
Proof.
  unfold Perform. destruct (MatchesFilter _ _); [by eexists _, _|].
  unfold request, bind, ret, Do. destruct (http_NewRequest _ _ _); by eexists _, _.
Qed.

(** C6 (amended).  For an event the filter does not match, when the request
    can be built from the configured asset path, [Perform] makes exactly one
    call, to the asset path, with the body encoded from the event's asset,
    PUT for an Update and DELETE for a Remove; when the request cannot be
    built it makes no call and classifies the construction error. *)
Theorem Perform_dispatch (t : ThemeClient) (asset : AssetEvent) (w : World) :
  MatchesFilter (filter t) (Key (AssetEvent_Asset asset)) = false ->
  (url_Parse_error (AssetPath (config t)) = None ->
   exists (req : Request) (r : Response + error),
     Perform t asset w
     = Ret (NewAPIAssetEvent r asset) (mkWorld (trace w ++ [EDo req]) (buckets w)) /\
     URL req = AssetPath (config t) /\
     Body req = Some (json_Marshal_asset {[ "asset" := AssetEvent_Asset asset ]}) /\
     (AssetEvent_Type asset = Update -> Method req = "PUT") /\
     (AssetEvent_Type asset = Remove -> Method req = "DELETE")) /\
  (forall msg : string,
     url_Parse_error (AssetPath (config t)) = Some msg ->
     Perform t asset w = Ret (NewAPIAssetEvent (inr (GenericError msg)) asset) w).
Proof.
  intros Hm. split.
  - intros Hu. unfold Perform, request, bind, ret. rewrite Hm.
    rewrite (http_NewRequest_ok _ _ _ Hu). unfold Do. simpl.
    eexists _, _. split; [reflexivity|]. simpl.
    split; [done|]. split; [done|]. split.
    + intros ->. done.
    + intros ->. done.
  - intros msg Hu. unfold Perform, request, bind, ret. rewrite Hm.
    by rewrite (http_NewRequest_fails _ _ _ _ Hu).
Qed.

End Dispatch.

(** [config.yml] is on the ignore list of the shop: updating it is a no-op. *)
Lemma Perform_ignored_witness :
  @Perform (scenario (always 200 "")) (shop_client "shop.example")
    config_update fresh_world
  = Ret NoOpEvent fresh_world.
Proof.
  apply (@Perform_ignored (scenario (always 200 "")) (shop_client "shop.example")
           config_update fresh_world).
  reflexivity.
Defined.

(** An update of [assets/style.css] is one PUT to the asset path. *)
Lemma Perform_dispatch_witness :
  exists (req : Request) (r : Response + error),
    @Perform (scenario (always 200 "")) (shop_client "shop.example")
      style_update fresh_world
    = Ret (NewAPIAssetEvent r style_update) (mkWorld [EDo req] ∅) /\
    URL req = "https://shop.example/admin/assets.json" /\
    Body req = Some "asset assets/style.css" /\
    (Update = Update -> Method req = "PUT") /\
    (Update = Remove -> Method req = "DELETE").
Proof.
  apply (proj1 (@Perform_dispatch (scenario (always 200 ""))
                  (shop_client "shop.example") style_update fresh_world eq_refl)).
  reflexivity.
Defined.

(** A removal of [assets/style.css] is one DELETE to the asset path. *)
Example Perform_remove :
  @Perform (scenario (always 200 "")) (shop_client "shop.example")
    style_remove fresh_world
  = Ret (NewAPIAssetEvent (inl (mkResponse 200 "" None)) style_remove)
        (mkWorld
           [EDo (mkRequest "DELETE" "https://shop.example/admin/assets.json"
                   [("X-Shopify-Access-Token", "token")]
                   (Some "asset assets/style.css"))] ∅).
Proof. reflexivity. Qed.

(** C6 as stated fails: with an asset path that [url.Parse] rejects, an
    update the filter does not match is performed without any call. *)
Lemma Perform_without_call :
  MatchesFilter (filter (shop_client bad_domain))
    (Key (AssetEvent_Asset style_update)) = false /\
  @Perform (scenario (always 200 "")) (shop_client bad_domain)
    style_update fresh_world
  = Ret (NewAPIAssetEvent (inr (GenericError "invalid URL escape")) style_update)
        fresh_world /\
  calls (trace fresh_world) = [].
Proof. split; [|split]; reflexivity. Qed.

(** ** Single-asset fetch *)

Section Fetch.
Context `{Env}.

(** The request [Asset] sends for [filename]. *)
Lemma query_request (t : ThemeClient) (queryBuilder : string -> string) (w : World) :
  let path := queryBuilder (AssetPath (config t) +:+ "?fields=key,attachment,value") in
  let req := AddHeaders (config t) (mkRequest "GET" path [] None) in
  url_Parse_error path = None ->
  query t queryBuilder w
  = Ret (match client_Do (client t) (trace w) req with
         | inl resp => mkApiResponse (StatusCode resp) (Response_Body resp)
                         (GenericError <$> Response_BodyErr resp)
         | inr msg => mkApiResponse 0 "" (Some (GenericError msg))
         end)
        (mkWorld (trace w ++ [EDo req]) (buckets w)).
Proof.
  intros path req Hu. unfold query. fold path.
  rewrite (http_NewRequest_ok _ _ _ Hu). unfold bind, Do, ret, answer. fold req.
  by destruct (client_Do _ _ _).
Qed.

(** C7.  A fetch that gets a response with code 400 or more fails with the
    typed [NonFatalNetworkError] carrying that code and the verb GET; a
    fetch whose transport fails (no response, a body that cannot be read, a
    request that cannot be built) fails with the generic error of the
    transport. *)
Theorem Asset_error_classification (t : ThemeClient) (filename : string) (w : World) :
  let path := (AssetPath (config t) +:+ "?fields=key,attachment,value")
              +:+ "&asset[key]=" +:+ filename in
  let req := AddHeaders (config t) (mkRequest "GET" path [] None) in
  let w' := mkWorld (trace w ++ [EDo req]) (buckets w) in
  (forall resp : Response,
     url_Parse_error path = None ->
     client_Do (client t) (trace w) req = inl resp ->
     Response_BodyErr resp = None ->
     400 <= StatusCode resp ->
     ThemeClient_Asset t filename w
     = Ret (zeroAsset,
            Some (NonFatal (mkNonFatalNetworkError (StatusCode resp) "GET" "not found")))
           w') /\
  (forall msg : string,
     url_Parse_error path = None ->
     client_Do (client t) (trace w) req = inr msg ->
     ThemeClient_Asset t filename w = Ret (zeroAsset, Some (GenericError msg)) w') /\
  (forall (resp : Response) (msg : string),
     url_Parse_error path = None ->
     client_Do (client t) (trace w) req = inl resp ->
     Response_BodyErr resp = Some msg ->
     ThemeClient_Asset t filename w = Ret (zeroAsset, Some (GenericError msg)) w') /\
  (forall msg : string,
     url_Parse_error path = Some msg ->
     ThemeClient_Asset t filename w = Ret (zeroAsset, Some (GenericError msg)) w).
Proof.
  intros path req w'. repeat split.
  - intros resp Hu Hdo Hb Hc. unfold ThemeClient_Asset, bind.
    rewrite query_request by exact Hu. fold path req. rewrite Hdo. simpl.
    rewrite Hb. simpl. by rewrite (proj2 (Z.leb_le _ _) Hc).
  - intros msg Hu Hdo. unfold ThemeClient_Asset, bind.
    rewrite query_request by exact Hu. fold path req. by rewrite Hdo.
  - intros resp msg Hu Hdo Hb. unfold ThemeClient_Asset, bind.
    rewrite query_request by exact Hu. fold path req. rewrite Hdo. simpl.
    by rewrite Hb.
  - intros msg Hu. unfold ThemeClient_Asset, bind, query. fold path.
    by rewrite (http_NewRequest_fails _ _ _ _ Hu).
Qed.

End Fetch.

(** A fetch answered with 404, and a fetch from a remote end that cannot be
    reached. *)
Lemma Asset_error_classification_witness :
  @ThemeClient_Asset (scenario (always 404 "")) (shop_client "shop.example")
    "assets/missing.css" fresh_world
  = Ret (zeroAsset, Some (NonFatal (mkNonFatalNetworkError 404 "GET" "not found")))
        (mkWorld
           [EDo (mkRequest "GET"
                   ("https://shop.example/admin/assets.json?fields=key,attachment,value&asset[key]=assets/missing.css")
                   [("X-Shopify-Access-Token", "token")] None)] ∅) /\
  @ThemeClient_Asset (scenario unreachable) (shop_client "shop.example")
    "assets/missing.css" fresh_world
  = Ret (zeroAsset, Some (GenericError "dial tcp: connection refused"))
        (mkWorld
           [EDo (mkRequest "GET"
                   ("https://shop.example/admin/assets.json?fields=key,attachment,value&asset[key]=assets/missing.css")
                   [("X-Shopify-Access-Token", "token")] None)] ∅).
Proof.
  split.
  - apply (proj1 (@Asset_error_classification (scenario (always 404 ""))
                    (shop_client "shop.example") "assets/missing.css" fresh_world)
             (mkResponse 404 "" None)); [reflexivity | reflexivity | reflexivity | simpl; lia].
  - apply (proj1 (proj2 (@Asset_error_classification (scenario unreachable)
                    (shop_client "shop.example") "assets/missing.css" fresh_world))
             "dial tcp: connection refused"); reflexivity.
Defined.

(** ** The limiter accessor *)

Section Limiter.
Context `{Env}.

Lemma NewLeakyBucket_fresh (size rate cost : Z) (w : World) :
  exists p : nat,
    NewLeakyBucket size rate cost w
    = Ret p (mkWorld (trace w) (<[p := mkLeakyBucket size rate cost]> (buckets w))) /\
    buckets w !! p = None.
Proof.
  exists (fresh (dom (buckets w))). split; [reflexivity|].
  apply not_elem_of_dom. apply is_fresh.
Qed.

(** C8 (amended).  Every access to the limiter of a client constructs a
    limiter of its own: the instance it yields was not on the heap before,
    it is initialised from the configured capacity and refill rate with cost
    1, and a second access yields another instance. *)
Theorem LeakyBucket_fresh_per_call (t : ThemeClient) (w : World) :
  exists (p q : nat) (w1 w2 : World),
    ThemeClient_LeakyBucket t w = Ret p w1 /\
    buckets w !! p = None /\
    buckets w1 !! p
    = Some (mkLeakyBucket (BucketSize (config t)) (RefillRate (config t)) 1) /\
    ThemeClient_LeakyBucket t w1 = Ret q w2 /\
    p <> q /\
    LeakyBucket_twice t w = Ret (p, q) w2.
Proof.
  unfold LeakyBucket_twice, ThemeClient_LeakyBucket, bind, ret.
  destruct (NewLeakyBucket_fresh (BucketSize (config t)) (RefillRate (config t)) 1 w)
    as (p & Hp & Hfresh).
  set (w1 := mkWorld (trace w) (<[p := mkLeakyBucket (BucketSize (config t)) (RefillRate (config t)) 1]> (buckets w))) in *.
  destruct (NewLeakyBucket_fresh (BucketSize (config t)) (RefillRate (config t)) 1 w1)
    as (q & Hq & Hfresh').
  eexists p, q, w1, _. rewrite Hp, Hq.
  split; [done|]. split; [done|]. split; [apply lookup_insert_eq|].
  split; [done|]. split; [|done].
  intros ->. subst w1. simpl in Hfresh'. by rewrite lookup_insert_eq in Hfresh'.
Qed.

End Limiter.

(** C8 as stated fails: two accesses within one session yield two
    limiters, at the addresses 0 and 1. *)
Lemma LeakyBucket_not_shared :
  @LeakyBucket_twice (scenario (always 200 "")) (shop_client "shop.example") fresh_world
  = Ret (0%nat, 1%nat)
        (mkWorld [] (<[1%nat := mkLeakyBucket 40 2 1]>
                       (<[0%nat := mkLeakyBucket 40 2 1]> ∅))) /\
  0%nat <> 1%nat.
Proof. split; [vm_compute; reflexivity | discriminate]. Qed.

(** ** Theme creation *)

Section Creation.
Context `{Env}.

Lemma sendData_ok (t : ThemeClient) (method path : string) (body : bytes) (w : World) :
  let req := AddHeaders (config t) (mkRequest method path [] (Some body)) in
  url_Parse_error path = None ->
  sendData t method path body w
  = Ret (NewAPIThemeEvent (answer (client t) (trace w) req))
        (mkWorld (trace w ++ [EDo req]) (buckets w)).
Proof.
  intros req Hu. unfold sendData. by rewrite (http_NewRequest_ok _ _ _ Hu).
Qed.

(** One failed attempt: [retries] goes up by one and the loop goes on. *)
Lemma CreateTheme_attempt_fails (fuel : nat) (t : ThemeClient) (path : string)
    (data : bytes) (retries : Z) (themeEvent : APIThemeEvent) (w : World) :
  let req := AddHeaders (config t) (mkRequest "POST" path [] (Some data)) in
  let e := NewAPIThemeEvent (answer (client t) (trace w) req) in
  url_Parse_error path = None ->
  retries < CreateThemeMaxRetries ->
  Successful e = false ->
  CreateTheme_attempts (S fuel) t path data retries false themeEvent w
  = CreateTheme_attempts fuel t path data (retries + 1) false e
      (mkWorld (trace w ++ [EDo req; EGo_logEvent e]) (buckets w)).
Proof.
  intros req e Hu Hr Hs. simpl.
  rewrite (proj2 (Z.ltb_lt _ _) Hr). simpl. unfold bind at 1.
  rewrite sendData_ok by exact Hu. fold req e. rewrite Hs. simpl.
  unfold bind, emit. simpl. by rewrite <- (assoc_L (++)).
Qed.

(** The attempts never outlast three units of fuel. *)
Lemma CreateTheme_attempts_fuel (fuel : nat) (t : ThemeClient) (path : string)
    (data : bytes) (retries : Z) (ready : bool) (themeEvent : APIThemeEvent)
    (w : World) :
  0 <= retries ->
  CreateThemeMaxRetries - retries <= Z.of_nat fuel ->
  forall w', CreateTheme_attempts fuel t path data retries ready themeEvent w
             <> OutOfFuel w'.
Proof.
  revert retries ready themeEvent w.
  induction fuel as [|fuel IH]; intros retries ready themeEvent w Hr Hf w'.
  - simpl. destruct (Z.ltb_spec retries CreateThemeMaxRetries); [lia|]. done.
  - simpl. destruct (retries <? CreateThemeMaxRetries); [|done].
    destruct ready; [done|]. simpl. unfold bind at 1.
    unfold sendData. destruct (http_NewRequest _ _ _); [|done].
    unfold bind at 1, Do, ret.
    destruct (negb (Successful _)).
    + unfold bind, emit. apply IH; lia.
    + unfold bind, emit. destruct fuel; simpl.
      * destruct (retries <? CreateThemeMaxRetries); done.
      * destruct (retries <? CreateThemeMaxRetries); done.
Qed.

(** C2.  When every creation attempt is answered unsuccessfully,
    [CreateTheme] makes exactly three attempts (each one logged), then
    notifies the error that names the archive location, and goes on to the
    handshake with the result of the third attempt, which is unsuccessful. *)
Theorem CreateTheme_retries_exhausted (t : ThemeClient) (name zipLocation : string)
    (w : World) (fuel : nat) :
  let path := AdminUrl (config t) +:+ "/themes.json" in
  let data := json_Marshal_theme
                {[ "theme" := mkTheme name zipLocation "unpublished" 0 false ]} in
  let req := AddHeaders (config t) (mkRequest "POST" path [] (Some data)) in
  url_Parse_error path = None ->
  (forall tr, Successful (NewAPIThemeEvent (answer (client t) tr req)) = false) ->
  (3 <= fuel)%nat ->
  exists (e1 e2 e3 : APIThemeEvent) (w' : World),
    CreateTheme_themeEvent fuel t name zipLocation w = Ret e3 w' /\
    trace w'
    = trace w ++ [EDo req; EGo_logEvent e1; EDo req; EGo_logEvent e2;
                  EDo req; EGo_logEvent e3;
                  ENotifyError (GenericError
                    ("'" +:+ zipLocation +:+ "' cannot be retrieved from Github."))] /\
    calls (trace w') = calls (trace w) ++ [req; req; req] /\
    Successful e3 = false /\
    CreateTheme fuel t name zipLocation w = CreateTheme_handshake fuel t e3 w'.
Proof.
  intros path data req Hu Hfail Hfuel.
  destruct fuel as [|[|[|fuel]]]; [lia | lia | lia |].
  set (e1 := NewAPIThemeEvent (answer (client t) (trace w) req)).
  set (w1 := mkWorld (trace w ++ [EDo req; EGo_logEvent e1]) (buckets w)).
  set (e2 := NewAPIThemeEvent (answer (client t) (trace w1) req)).
  set (w2 := mkWorld (trace w1 ++ [EDo req; EGo_logEvent e2]) (buckets w1)).
  set (e3 := NewAPIThemeEvent (answer (client t) (trace w2) req)).
  set (w3 := mkWorld (trace w2 ++ [EDo req; EGo_logEvent e3]) (buckets w2)).
  assert (Hloop : CreateTheme_attempts (S (S (S fuel))) t path data 0 false
                    zeroAPIThemeEvent w = Ret (3, e3) w3).
  { rewrite CreateTheme_attempt_fails; [|done|done|apply Hfail].
    fold req e1 w1.
    rewrite CreateTheme_attempt_fails; [|done|done|apply Hfail].
    fold req e2 w2.
    rewrite CreateTheme_attempt_fails; [|done|done|apply Hfail].
    fold req e3 w3. by destruct fuel. }
  set (w4 := mkWorld (trace w3 ++ [ENotifyError (GenericError
               ("'" +:+ zipLocation +:+ "' cannot be retrieved from Github."))])
               (buckets w3)).
  assert (Hev : CreateTheme_themeEvent (S (S (S fuel))) t name zipLocation w
                = Ret e3 w4).
  { unfold CreateTheme_themeEvent. fold path data. unfold bind at 1.
    rewrite Hloop. reflexivity. }
  exists e1, e2, e3, w4. split; [exact Hev|]. split; [|split; [|split]].
  - simpl. rewrite <- !(assoc_L (++)). reflexivity.
  - simpl. unfold calls. rewrite !omap_app. simpl.
    rewrite <- !(assoc_L (++)). reflexivity.
  - apply Hfail.
  - unfold CreateTheme, bind. by rewrite Hev.
Qed.

End Creation.

(** A remote end that answers every creation attempt with 404: three POSTs,
    then the notification. *)
Lemma CreateTheme_retries_exhausted_witness :
  exists (e3 : APIThemeEvent) (w' : World),
    @CreateTheme_themeEvent (scenario (always 404 "")) 3 (shop_client "shop.example")
      "Timber-master" "https://github.com/Shopify/Timber/archive/master.zip"
      fresh_world = Ret e3 w' /\
    length (calls (trace w')) = 3%nat /\
    Successful e3 = false.
Proof.
  destruct (@CreateTheme_retries_exhausted (scenario (always 404 ""))
              (shop_client "shop.example") "Timber-master"
              "https://github.com/Shopify/Timber/archive/master.zip"
              fresh_world 3)
    as (e1 & e2 & e3 & w' & Hev & Htr & Hcalls & Hs & Hgo).
  - reflexivity.
  - intros tr. reflexivity.
  - lia.
  - exists e3, w'. split; [exact Hev|]. split; [|exact Hs].
    rewrite Hcalls. reflexivity.
Defined.

Section Readiness.
Context `{Env}.

Lemma polls_S (req : Request) (k : nat) :
  polls req (S k) = polls req k ++ [EDo req; ESleep 250].
Proof.
  unfold polls. rewrite replicate_S_end, concat_app. reflexivity.
Qed.

(** The poll, [n] unanswered rounds away from the first previewable
    answer: it runs out of fuel within [n] queries and returns right after
    query [n + 1]. *)
Lemma CreateTheme_poll_rounds (t : ThemeClient) (themeId : Z) (w1 : World)
    (N : nat) :
  let path := AdminUrl (config t) +:+ "/themes/" +:+ pretty themeId +:+ ".json" in
  let req := AddHeaders (config t) (mkRequest "GET" path [] (Some "")) in
  let previewable k :=
    APIThemeEvent_Previewable
      (NewAPIThemeEvent (answer (client t) (trace w1 ++ polls req k) req)) in
  url_Parse_error path = None ->
  (forall k, (k < N)%nat -> previewable k = false) ->
  previewable N = true ->
  forall (n k fuel : nat), (k + n = N)%nat ->
    let w := mkWorld (trace w1 ++ polls req k) (buckets w1) in
    ((fuel <= n)%nat -> exists w', CreateTheme_poll fuel t themeId w = OutOfFuel w') /\
    ((n < fuel)%nat ->
       CreateTheme_poll fuel t themeId w
       = Ret tt (mkWorld (trace w1 ++ polls req N ++ [EDo req]) (buckets w1))).
Proof.
  intros path req previewable Hu Hfalse Htrue.
  induction n as [|n IH]; intros k fuel Hk w; subst w.
  - assert (k = N) as -> by lia. split.
    + intros Hf. replace fuel with 0%nat by lia. by eexists.
    + intros Hf. destruct fuel as [|fuel]; [lia|]. simpl.
      unfold bind at 1, isDoneProcessing, bind. rewrite sendData_ok by exact Hu.
      fold path req. unfold ret. simpl.
      change (APIThemeEvent_Previewable _) with (previewable N).
      rewrite Htrue. simpl. by rewrite <- (assoc_L (++)).
  - destruct fuel as [|fuel]; [split; [by eexists | lia]|].
    assert (Hstep : CreateTheme_poll (S fuel) t themeId
                      (mkWorld (trace w1 ++ polls req k) (buckets w1))
                    = CreateTheme_poll fuel t themeId
                        (mkWorld (trace w1 ++ polls req (S k)) (buckets w1))).
    { simpl. unfold bind at 1, isDoneProcessing, bind.
      rewrite sendData_ok by exact Hu. fold path req. unfold ret. simpl.
      change (APIThemeEvent_Previewable _) with (previewable k).
      rewrite Hfalse by lia. simpl. unfold time_Sleep, emit. simpl.
      rewrite polls_S. by rewrite <- !(assoc_L (++)). }
    rewrite Hstep. destruct (IH (S k) fuel ltac:(lia)) as [IH1 IH2]. split.
    + intros Hf. apply IH1. lia.
    + intros Hf. apply IH2. lia.
Qed.

(** Whatever the remote end does: when the poll returns, the answer to its
    last status query was previewable. *)
Lemma CreateTheme_poll_returns_previewable (fuel : nat) (t : ThemeClient)
    (themeId : Z) (w w' : World) :
  CreateTheme_poll fuel t themeId w = Ret tt w' ->
  exists (tr : list Effect) (req : Request),
    trace w' = tr ++ [EDo req] /\
    Method req = "GET" /\
    APIThemeEvent_Previewable (NewAPIThemeEvent (answer (client t) tr req)) = true.
Proof.
  revert w. induction fuel as [|fuel IH]; intros w Hret; [done|].
  simpl in Hret. unfold bind at 1, isDoneProcessing, bind at 1, sendData in Hret.
  destruct (http_NewRequest _ _ _) as [req|e] eqn:Hreq; [|done].
  unfold bind, Do, ret in Hret. simpl in Hret.
  destruct (APIThemeEvent_Previewable _) eqn:Hp; simpl in Hret.
  - injection Hret as <-. eexists _, _. split; [reflexivity|]. split; [|exact Hp].
    unfold http_NewRequest in Hreq. destruct (url_Parse_error _); [done|].
    by injection Hreq as <-.
  - unfold time_Sleep, emit in Hret. by apply IH in Hret.
Qed.

(** The creation phase never outlasts three units of fuel. *)
Lemma CreateTheme_themeEvent_fuel (fuel : nat) (t : ThemeClient)
    (name zipLocation : string) (w w' : World) :
  (3 <= fuel)%nat ->
  CreateTheme_themeEvent fuel t name zipLocation w <> OutOfFuel w'.
Proof.
  intros Hf. unfold CreateTheme_themeEvent, bind at 1.
  destruct (CreateTheme_attempts _ _ _ _ _ _ _ _) as [rt w1|w1|w1] eqn:Hloop.
  - unfold bind. destruct (_ <=? _); done.
  - done.
  - exfalso. eapply CreateTheme_attempts_fuel; [| |exact Hloop].
    + lia.
    + unfold CreateThemeMaxRetries. lia.
Qed.

(** C3.  After the creation phase returned [themeEvent], if the status
    endpoint answers the first [N] queries with previewable = false and
    query [N + 1] with true, then [CreateTheme] is still polling after [N]
    queries, and returns right after query [N + 1], having slept 250 ms
    after each of the [N] queries before; the client it returns is
    configured with the identifier of [themeEvent]. *)
Theorem CreateTheme_waits_until_previewable (t : ThemeClient)
    (name zipLocation : string) (w w1 : World) (themeEvent : APIThemeEvent)
    (N fuel : nat) :
  let path := AdminUrl (config t) +:+ "/themes/"
              +:+ pretty (APIThemeEvent_ThemeId themeEvent) +:+ ".json" in
  let req := AddHeaders (config t) (mkRequest "GET" path [] (Some "")) in
  let previewable k :=
    APIThemeEvent_Previewable
      (NewAPIThemeEvent (answer (client t) (trace w1 ++ polls req k) req)) in
  CreateTheme_themeEvent fuel t name zipLocation w = Ret themeEvent w1 ->
  url_Parse_error path = None ->
  (forall k, (k < N)%nat -> previewable k = false) ->
  previewable N = true ->
  ((fuel <= N)%nat ->
     exists w', CreateTheme fuel t name zipLocation w = OutOfFuel w') /\
  ((N < fuel)%nat ->
     exists t' : ThemeClient,
       CreateTheme fuel t name zipLocation w
       = Ret t' (mkWorld (trace w1 ++ polls req N ++ [EDo req]) (buckets w1)) /\
       ThemeId (GetConfiguration t') = APIThemeEvent_ThemeId themeEvent).
Proof.
  intros path req previewable Hev Hu Hfalse Htrue.
  destruct (CreateTheme_poll_rounds t (APIThemeEvent_ThemeId themeEvent) w1 N
              Hu Hfalse Htrue N 0%nat fuel ltac:(lia)) as [Hout Hret].
  fold path req in Hout, Hret.
  assert (Hw : mkWorld (trace w1 ++ polls req 0) (buckets w1) = w1)
    by (destruct w1; unfold polls; simpl; by rewrite app_nil_r).
  rewrite Hw in Hout, Hret.
  unfold CreateTheme, CreateTheme_handshake, bind. rewrite Hev.
  split.
  - intros Hf. destruct (Hout Hf) as [w' Hw']. exists w'. by rewrite Hw'.
  - intros Hf. rewrite (Hret Hf).
    eexists. split; [reflexivity|].
    unfold GetConfiguration, NewThemeClient. simpl.
    by rewrite Initialize_ThemeId.
Qed.

End Readiness.

(** A theme that is previewable at the first query: the poll returns after
    that one query. *)
Lemma CreateTheme_poll_returns_previewable_witness :
  exists (tr : list Effect) (req : Request),
    [EDo (mkRequest "GET" "https://shop.example/admin/themes/7.json"
            [("X-Shopify-Access-Token", "token")] (Some ""))]
    = tr ++ [EDo req] /\
    Method req = "GET" /\
    APIThemeEvent_Previewable
      (@NewAPIThemeEvent (scenario (always 200 "7 previewable"))
         (@answer (scenario (always 200 "7 previewable"))
            (client (shop_client "shop.example")) tr req)) = true.
Proof.
  apply (@CreateTheme_poll_returns_previewable (scenario (always 200 "7 previewable"))
           1 (shop_client "shop.example") 7 fresh_world
           (mkWorld
              [EDo (mkRequest "GET" "https://shop.example/admin/themes/7.json"
                      [("X-Shopify-Access-Token", "token")] (Some ""))] ∅)).
  reflexivity.
Defined.

(** A remote end that creates theme 7 and reports it previewable at the
    third status query: four calls in all, and a client bound to theme 7. *)
Lemma CreateTheme_waits_until_previewable_witness :
  exists (t' : ThemeClient) (w' : World),
    @CreateTheme (scenario warming_up) 3 (shop_client "shop.example")
      "Timber-master" "https://github.com/Shopify/Timber/archive/master.zip"
      fresh_world = Ret t' w' /\
    Method <$> calls (trace w') = ["POST"; "GET"; "GET"; "GET"] /\
    ThemeId (GetConfiguration t') = 7.
Proof.
  destruct (@CreateTheme_waits_until_previewable (scenario warming_up)
              (shop_client "shop.example")
              "Timber-master" "https://github.com/Shopify/Timber/archive/master.zip"
              fresh_world
              (mkWorld
                 [EDo (mkRequest "POST" "https://shop.example/admin/themes.json"
                         [("X-Shopify-Access-Token", "token")]
                         (Some "theme Timber-master"));
                  EGo_logEvent (mkAPIThemeEvent 201 7 false)] ∅)
              (mkAPIThemeEvent 201 7 false) 2 3)
    as [_ Hret].
  - reflexivity.
  - reflexivity.
  - intros k Hk. destruct k as [|[|k]]; [reflexivity | reflexivity | lia].
  - reflexivity.
  - destruct (Hret ltac:(lia)) as (t' & Hrun & Hid).
    eexists t', _. split; [exact Hrun|]. split; [reflexivity | exact Hid].
Defined.

(** ** Event processing *)

Section Processing.
Context `{Env}.

(** C4.  For a finite input stream, [Process] delivers exactly one result
    per input event (the result of performing it, in input order); once the
    producer has closed the stream it closes the result stream and then
    raises the completion signal, which is its last action; on a stream that
    is not closed it delivers the same results and neither closes nor
    signals. *)
Theorem Process_one_result_per_event (t : ThemeClient) (events : list AssetEvent)
    (w : World) :
  exists (results : list ThemeEvent) (w' : World),
    Perform_each t events w = Ret results w' /\
    length results = length events /\
    Process t events true w
    = Ret ((SendMessage <$> results) ++ [CloseMessages; SendDone true]) w' /\
    Process t events false w = Ret (SendMessage <$> results) w'.
Proof.
  revert w. induction events as [|job events IH]; intros w.
  - exists [], w. done.
  - destruct (Perform_returns t job w) as (m & w1 & Hm & _).
    destruct (IH w1) as (results & w' & Hall & Hlen & Hclosed & Hopen).
    exists (m :: results), w'. simpl. unfold bind. rewrite Hm.
    rewrite Hall, Hclosed, Hopen. simpl. by rewrite Hlen.
Qed.

End Processing.

(** ** Listing *)

Section Listing.
Context `{Env}.

(** A listing whose body cannot be decoded reports the decoding error and
    emits no asset; it closes neither channel. *)
Lemma AssetList_undecodable (t : ThemeClient) (w : World) (resp : apiResponse)
    (w' : World) (msg : string) :
  query t (fun path => path) w = Ret resp w' ->
  json_Unmarshal_assets (body resp) = inr msg ->
  exists ops,
    AssetList t w = Ret ops w' /\
    emitted_assets ops = [] /\
    last (reported_errors ops) = Some (GenericError msg) /\
    CloseResults ∉ ops.
Proof.
  intros Hq Hd. unfold AssetList, bind. rewrite Hq, Hd.
  eexists. split; [reflexivity|].
  destruct (err resp); simpl; (split; [done|]); (split; [done|]);
    intros Hin;
    repeat (apply elem_of_cons in Hin as [Hin|Hin]; [discriminate Hin|]);
    by apply elem_of_nil in Hin.
Qed.

(** A listing fetched and decoded without error emits the decoded assets,
    sorted by key and deduplicated, then closes both channels. *)
Lemma AssetList_success (t : ThemeClient) (w : World) (resp : apiResponse)
    (w' : World) (assets : gmap string (list Asset)) :
  query t (fun path => path) w = Ret resp w' ->
  err resp = None ->
  json_Unmarshal_assets (body resp) = inl assets ->
  AssetList t w
  = Ret ((SendResult <$> ignoreCompiledAssets (sort_ByAsset (default [] (assets !! "assets"))))
         ++ [CloseResults; CloseErrs]) w'.
Proof.
  intros Hq He Hd. unfold AssetList, bind. by rewrite Hq, He, Hd.
Qed.

(** A listing whose call failed but whose body decodes: the error is
    reported, and the goroutine goes on to emit the assets. *)
Lemma AssetList_failed_call_goes_on (t : ThemeClient) (w : World)
    (resp : apiResponse) (w' : World) (e : error)
    (assets : gmap string (list Asset)) :
  query t (fun path => path) w = Ret resp w' ->
  err resp = Some e ->
  json_Unmarshal_assets (body resp) = inl assets ->
  AssetList t w
  = Ret (SendErr e ::
         (SendResult <$> ignoreCompiledAssets (sort_ByAsset (default [] (assets !! "assets"))))
         ++ [CloseResults; CloseErrs]) w'.
Proof.
  intros Hq He Hd. unfold AssetList, bind. by rewrite Hq, He, Hd.
Qed.

Lemma emitted_assets_results (l : list Asset) (tl : list AssetList_op) :
  emitted_assets ((SendResult <$> l) ++ tl) = l ++ emitted_assets tl.
Proof.
  unfold emitted_assets. rewrite omap_app. f_equal.
  induction l as [|a l IH]; simpl; [done | by f_equal].
Qed.

Lemma AssetListSync_loop_results (l acc : list Asset) (tl : list AssetList_op) :
  AssetListSync_loop ((SendResult <$> l) ++ tl) acc = AssetListSync_loop tl (acc ++ l).
Proof.
  revert acc. induction l as [|a l IH]; intros acc; simpl.
  - by rewrite app_nil_r.
  - rewrite IH. by rewrite <- (assoc_L (++)).
Qed.

(** On a listing fetched and decoded without error [AssetListSync] returns
    the emitted assets in emission order. *)
Lemma AssetListSync_success (t : ThemeClient) (w : World) (resp : apiResponse)
    (w' : World) (assets : gmap string (list Asset)) :
  query t (fun path => path) w = Ret resp w' ->
  err resp = None ->
  json_Unmarshal_assets (body resp) = inl assets ->
  AssetListSync t w
  = Ret (Returns (ignoreCompiledAssets (sort_ByAsset (default [] (assets !! "assets"))))) w'.
Proof.
  intros Hq He Hd. unfold AssetListSync, bind.
  rewrite (AssetList_success t w resp w' assets Hq He Hd).
  unfold ret. by rewrite AssetListSync_loop_results.
Qed.

(** On a listing that reports an error, whichever it is, [AssetListSync]
    never returns: the goroutine waits in [errs <- err] for a receiver that
    does not exist. *)
Lemma AssetListSync_failure (t : ThemeClient) (w : World) (resp : apiResponse)
    (w' : World) :
  query t (fun path => path) w = Ret resp w' ->
  (is_Some (err resp) \/ exists msg, json_Unmarshal_assets (body resp) = inr msg) ->
  AssetListSync t w = Ret BlocksForever w'.
Proof.
  intros Hq Hfail. unfold AssetListSync, AssetList, bind. rewrite Hq. unfold ret.
  destruct (err resp) as [e|] eqn:He.
  - by destruct (json_Unmarshal_assets (body resp)).
  - destruct Hfail as [[e He']|[msg Hd]]; [done|]. by rewrite Hd.
Qed.

End Listing.

(** ** [AssetListSync_loop] against the steps of the two parties *)

Lemma Sync_step_fate (s s' : Sync_state) :
  Sync_step s s' -> Sync_fate s = Sync_fate s'.
Proof.
  intros Hstep. destruct Hstep as [a ops acc|ops c acc r|ops c acc r|ops acc];
    unfold Sync_fate; simpl; try done.
  - destruct r; [done|]. by destruct c.
Qed.

Lemma Sync_steps_fate (s s' : Sync_state) :
  rtc Sync_step s s' -> Sync_fate s = Sync_fate s'.
Proof.
  induction 1 as [|s1 s2 s3 Hstep _ IH]; [done|].
  by rewrite (Sync_step_fate _ _ Hstep).
Qed.

(** If the function says [Returns l], a run of the two parties returns [l]. *)
Lemma AssetListSync_loop_returns (ops : list AssetList_op) (acc l : list Asset) :
  AssetListSync_loop ops acc = Returns l ->
  exists s, rtc Sync_step (mkSync ops false acc None) s /\ returned s = Some l.
Proof.
  revert acc. induction ops as [|op ops IH]; intros acc Hl; [done|].
  destruct op as [e|a| |]; simpl in Hl.
  - done.
  - destruct (IH _ Hl) as (s & Hs & Hr). exists s. split; [|done].
    eapply rtc_l; [apply Sync_result | exact Hs].
  - injection Hl as <-. exists (mkSync ops true acc (Some acc)). split; [|done].
    eapply rtc_l; [apply Sync_close_results|].
    eapply rtc_l; [apply Sync_return|]. done.
  - destruct (IH _ Hl) as (s & Hs & Hr). exists s. split; [|done].
    eapply rtc_l; [apply Sync_close_errs | exact Hs].
Qed.

(** The function decides how the two parties end: the caller returns [l] in
    some run exactly when the function says [Returns l]; when it says
    [BlocksForever], no run ever returns. *)
Lemma AssetListSync_loop_adequate (ops : list AssetList_op) (acc : list Asset) :
  (forall l, AssetListSync_loop ops acc = Returns l <->
             exists s, rtc Sync_step (mkSync ops false acc None) s /\
                       returned s = Some l) /\
  (AssetListSync_loop ops acc = BlocksForever <->
   forall s, rtc Sync_step (mkSync ops false acc None) s -> returned s = None).
Proof.
  assert (Hsound : forall s l,
            rtc Sync_step (mkSync ops false acc None) s -> returned s = Some l ->
            AssetListSync_loop ops acc = Returns l).
  { intros s l Hs Hr. apply Sync_steps_fate in Hs.
    unfold Sync_fate in Hs. simpl in Hs. by rewrite Hr in Hs. }
  split.
  - intros l. split; [apply AssetListSync_loop_returns|].
    intros (s & Hs & Hr). by apply (Hsound s).
  - split.
    + intros Hb s Hs. destruct (returned s) as [l|] eqn:Hr; [|done].
      rewrite (Hsound s l Hs Hr) in Hb. discriminate Hb.
    + intros Hnone. destruct (AssetListSync_loop ops acc) as [l|] eqn:Hl; [|done].
      destruct (AssetListSync_loop_returns _ _ _ Hl) as (s & Hs & Hr).
      rewrite (Hnone s Hs) in Hr. discriminate Hr.
Qed.

(** The request a listing sends to the shop. *)
Lemma listing_world :
  @query (scenario truncated) (shop_client "shop.example") (fun path => path) fresh_world
  = Ret (mkApiResponse 200 listing_body (Some (GenericError "unexpected EOF")))
        (mkWorld
           [EDo (mkRequest "GET"
                   "https://shop.example/admin/assets.json?fields=key,attachment,value"
                   [("X-Shopify-Access-Token", "token")] None)] ∅).
Proof. reflexivity. Qed.

(** C9, at the failing input: the listing [{"assets":[{"key":"a.css"}]}]
    arrives whole and reading the body then breaks off.  The call has
    failed, and [AssetList] reports the error, yet it goes on to emit the
    asset and to close both channels as after a success. *)
Theorem AssetList_emits_after_failed_call :
  exists w' : World,
    @AssetList (scenario truncated) (shop_client "shop.example") fresh_world
    = Ret [SendErr (GenericError "unexpected EOF");
           SendResult (mkAsset "a.css" "" "");
           CloseResults; CloseErrs] w' /\
    reported_errors [SendErr (GenericError "unexpected EOF");
                     SendResult (mkAsset "a.css" "" "");
                     CloseResults; CloseErrs]
    = [GenericError "unexpected EOF"] /\
    emitted_assets [SendErr (GenericError "unexpected EOF");
                    SendResult (mkAsset "a.css" "" "");
                    CloseResults; CloseErrs]
    = [mkAsset "a.css" "" ""].
Proof. eexists. split; [|split]; vm_compute; reflexivity. Qed.

(** C10, at the failing input: with a remote end that cannot be reached
    [AssetListSync] never returns, while on an empty listing it returns the
    empty list; the caller does tell the two apart. *)
Theorem AssetListSync_blocks_on_failure :
  exists w' : World,
    @AssetList (scenario unreachable) (shop_client "shop.example") fresh_world
    = Ret [SendErr (GenericError "dial tcp: connection refused");
           SendErr (GenericError "unexpected end of JSON input")] w' /\
    @AssetListSync (scenario unreachable) (shop_client "shop.example") fresh_world
    = Ret BlocksForever w' /\
    @AssetListSync (scenario (always 200 empty_listing_body))
      (shop_client "shop.example") fresh_world
    = Ret (Returns []) w'.
Proof. eexists. split; [|split]; vm_compute; reflexivity. Qed.

(** ** More on the deduplication pass *)

Lemma substring_of_refl (a : string) : substring_of a a.
Proof.
  exists "", "". rewrite append_empty.
  induction a as [|c a IH]; [done|]. rewrite append_String. by f_equal.
Qed.

Lemma isCompiled_sublist (a : Asset) (l1 l2 : list Asset) :
  l1 `sublist_of` l2 -> isCompiled a l1 = true -> isCompiled a l2 = true.
Proof.
  induction 1 as [|x l1 l2 _ IH|x l1 l2 _ IH]; simpl; [done| |].
  - destruct (Contains (Key x) (Key a)); [done | exact IH].
  - intros Hc. destruct (Contains (Key x) (Key a)); [done | by apply IH].
Qed.

Lemma isCompiled_elem (a b : Asset) (rest : list Asset) :
  b ∈ rest -> substring_of (Key a) (Key b) -> isCompiled a rest = true.
Proof.
  intros Hin Hs. apply isCompiled_spec.
  apply list_elem_of_lookup in Hin as [j Hj]. by exists j, b.
Qed.

(** Among the retained assets no key is a substring of the key of a later
    one. *)
Lemma dedup_forward_free (l : list Asset) (i j : nat) (a b : Asset) :
  (i < j)%nat -> dedup l !! i = Some a -> dedup l !! j = Some b ->
  ~ substring_of (Key a) (Key b).
Proof.
  revert i j. induction l as [|x l IH]; intros i j Hij Hi Hj Hs; [done|].
  simpl in Hi, Hj. destruct (isCompiled x l) eqn:Hx.
  - by apply (IH i j).
  - destruct i as [|i]; simpl in Hi.
    + injection Hi as ->. destruct j as [|j]; [lia|]. simpl in Hj.
      assert (b ∈ l) as Hin.
      { eapply elem_of_sublist; [|apply dedup_sublist].
        apply list_elem_of_lookup. by exists j. }
      rewrite (isCompiled_elem a b l Hin Hs) in Hx. discriminate Hx.
    + destruct j as [|j]; [lia|]. simpl in Hj. apply (IH i j); [lia|done|done|done].
Qed.

Lemma dedup_distinct_keys (assets : list Asset) : NoDup (Key <$> dedup assets).
Proof.
  apply NoDup_alt. intros i j k Hi Hj.
  rewrite list_lookup_fmap in Hi, Hj.
  destruct (dedup assets !! i) as [a|] eqn:Ha; [|done].
  destruct (dedup assets !! j) as [b|] eqn:Hb; [|done].
  simpl in Hi, Hj. injection Hi as Hi. injection Hj as Hj.
  destruct (Nat.lt_total i j) as [Hlt|[Heq|Hgt]]; [|done|].
  - exfalso. apply (dedup_forward_free assets i j a b Hlt Ha Hb).
    rewrite Hi, Hj. apply substring_of_refl.
  - exfalso. apply (dedup_forward_free assets j i b a Hgt Hb Ha).
    rewrite Hi, Hj. apply substring_of_refl.
Qed.

(** Whatever the input (sorted or not, with repeated keys or not): in the
    output of [ignoreCompiledAssets] no key is a substring of the key of a
    later output asset, and no two output assets have the same key. *)
Theorem ignoreCompiledAssets_output_free (assets : list Asset) :
  (forall (i j : nat) (a b : Asset),
     (i < j)%nat ->
     ignoreCompiledAssets assets !! i = Some a ->
     ignoreCompiledAssets assets !! j = Some b ->
     ~ substring_of (Key a) (Key b)) /\
  NoDup (Key <$> ignoreCompiledAssets assets).
Proof.
  rewrite ignoreCompiledAssets_dedup. split; [apply dedup_forward_free|].
  apply dedup_distinct_keys.
Qed.

Lemma dedup_idempotent (l : list Asset) : dedup (dedup l) = dedup l.
Proof.
  induction l as [|x l IH]; [done|]. simpl.
  destruct (isCompiled x l) eqn:Hx; [exact IH|]. simpl.
  destruct (isCompiled x (dedup l)) eqn:Hx'.
  - rewrite (isCompiled_sublist x _ _ (dedup_sublist l) Hx') in Hx. discriminate Hx.
  - by rewrite IH.
Qed.

Lemma dedup_last (l : list Asset) : last (dedup l) = last l.
Proof.
  induction l as [|x l IH]; [done|]. simpl.
  destruct l as [|y l]; [done|].
  destruct (isCompiled x (y :: l)); [exact IH|].
  rewrite last_cons, IH. change (last (x :: y :: l)) with (last (y :: l)).
  destruct (last (y :: l)) eqn:Hl; [done|]. by apply last_None in Hl.
Qed.

(** Running the pass on its own output changes nothing; the last asset of
    the input is always retained, so the output is empty only for an empty
    input; and the output is never longer than the input. *)
Theorem ignoreCompiledAssets_idempotent (assets : list Asset) :
  ignoreCompiledAssets (ignoreCompiledAssets assets) = ignoreCompiledAssets assets /\
  last (ignoreCompiledAssets assets) = last assets /\
  (ignoreCompiledAssets assets = [] <-> assets = []) /\
  (length (ignoreCompiledAssets assets) <= length assets)%nat.
Proof.
  rewrite !ignoreCompiledAssets_dedup. split; [apply dedup_idempotent|].
  split; [apply dedup_last|]. split.
  - split; [|by intros ->]. intros He.
    pose proof (dedup_last assets) as Hl. rewrite He in Hl. simpl in Hl.
    symmetry in Hl. by apply last_None in Hl.
  - apply sublist_length, dedup_sublist.
Qed.

(** ** Order of a listing *)

Lemma String_leb_trans (s1 s2 s3 : string) :
  String.leb s1 s2 = true -> String.leb s2 s3 = true -> String.leb s1 s3 = true.
Proof.
  unfold String.leb. revert s2 s3.
  induction s1 as [|a s1 IH]; intros [|b s2] [|c s3]; simpl; try done.
  unfold Ascii.compare.
  destruct (N.compare_spec (Ascii.N_of_ascii a) (Ascii.N_of_ascii b)) as [Hab|Hab|Hab];
  destruct (N.compare_spec (Ascii.N_of_ascii b) (Ascii.N_of_ascii c)) as [Hbc|Hbc|Hbc];
  destruct (N.compare_spec (Ascii.N_of_ascii a) (Ascii.N_of_ascii c)) as [Hac|Hac|Hac];
    try done; try lia.
  apply IH.
Qed.

#[global] Instance ByAsset_trans : Transitive ByAsset.
Proof. intros a b c. apply String_leb_trans. Qed.

Lemma StronglySorted_sublist {A} (R : relation A) (l1 l2 : list A) :
  l1 `sublist_of` l2 -> StronglySorted R l2 -> StronglySorted R l1.
Proof.
  induction 1 as [|x l1 l2 Hsub IH|x l1 l2 Hsub IH]; intros Hs; [done| |].
  - apply StronglySorted_inv in Hs as [Hs Hall]. constructor; [by apply IH|].
    apply Forall_forall. intros y Hy. rewrite Forall_forall in Hall.
    apply Hall. by eapply elem_of_sublist.
  - apply StronglySorted_inv in Hs as [Hs _]. by apply IH.
Qed.

(** Sorting and then deduplicating, as [AssetList] does, gives a listing in
    ascending key order. *)
Lemma sorted_listing (l : list Asset) :
  StronglySorted ByAsset (ignoreCompiledAssets (sort_ByAsset l)) /\
  forall a, a ∈ ignoreCompiledAssets (sort_ByAsset l) -> a ∈ l.
Proof.
  rewrite ignoreCompiledAssets_dedup. split.
  - eapply StronglySorted_sublist; [apply dedup_sublist|].
    apply StronglySorted_merge_sort; apply _.
  - intros a Ha. eapply elem_of_sublist in Ha; [|apply dedup_sublist].
    unfold sort_ByAsset in Ha. by rewrite merge_sort_Permutation in Ha.
Qed.

Section ListingOrder.
Context `{Env}.

(** When the listing call returns a response without error whose body
    decodes, [AssetList] reports no error, emits assets of the decoded
    listing only, in ascending key order and with pairwise distinct keys,
    then closes both channels; [AssetListSync] returns exactly the emitted
    assets; a decoded object without the key "assets" gives the empty
    listing. *)
Theorem AssetList_emits_sorted (t : ThemeClient) (w : World) (resp : apiResponse)
    (w' : World) (assets : gmap string (list Asset)) :
  query t (fun path => path) w = Ret resp w' ->
  err resp = None ->
  json_Unmarshal_assets (body resp) = inl assets ->
  exists emitted : list Asset,
    AssetList t w
    = Ret ((SendResult <$> emitted) ++ [CloseResults; CloseErrs]) w' /\
    emitted_assets ((SendResult <$> emitted) ++ [CloseResults; CloseErrs]) = emitted /\
    reported_errors ((SendResult <$> emitted) ++ [CloseResults; CloseErrs]) = [] /\
    StronglySorted ByAsset emitted /\
    NoDup (Key <$> emitted) /\
    (forall a, a ∈ emitted -> a ∈ default [] (assets !! "assets")) /\
    (assets !! "assets" = None -> emitted = []) /\
    AssetListSync t w = Ret (Returns emitted) w'.
Proof.
  intros Hq He Hd.
  exists (ignoreCompiledAssets (sort_ByAsset (default [] (assets !! "assets")))).
  split; [by apply (AssetList_success t w resp)|].
  split; [rewrite emitted_assets_results; simpl; by rewrite app_nil_r|].
  split.
  { unfold reported_errors. rewrite omap_app. simpl. rewrite app_nil_r.
    induction (ignoreCompiledAssets _) as [|a l IH]; [done | exact IH]. }
  split; [apply sorted_listing|].
  split; [rewrite ignoreCompiledAssets_dedup; apply dedup_distinct_keys|].
  split; [apply sorted_listing|].
  split; [by intros ->|].
  by apply (AssetListSync_success t w resp).
Qed.

End ListingOrder.

(** The listing [{"assets":[{"key":"a.css"}]}] answered with 200. *)
Lemma AssetList_emits_sorted_witness :
  exists emitted : list Asset,
    @AssetList (scenario (always 200 listing_body)) (shop_client "shop.example")
      fresh_world
    = Ret ((SendResult <$> emitted) ++ [CloseResults; CloseErrs])
          (mkWorld
             [EDo (mkRequest "GET"
                     "https://shop.example/admin/assets.json?fields=key,attachment,value"
                     [("X-Shopify-Access-Token", "token")] None)] ∅) /\
    StronglySorted ByAsset emitted /\
    NoDup (Key <$> emitted).
Proof.
  destruct (@AssetList_emits_sorted (scenario (always 200 listing_body))
              (shop_client "shop.example") fresh_world
              (mkApiResponse 200 listing_body None)
              (mkWorld
                 [EDo (mkRequest "GET"
                         "https://shop.example/admin/assets.json?fields=key,attachment,value"
                         [("X-Shopify-Access-Token", "token")] None)] ∅)
              {[ "assets" := [mkAsset "a.css" "" ""] ]})
    as (emitted & Hrun & _ & _ & Hsorted & Hnodup & _).
  - reflexivity.
  - reflexivity.
  - reflexivity.
  - exists emitted. split; [exact Hrun|]. split; [exact Hsorted | exact Hnodup].
Defined.

(** ** When a fetch succeeds *)

Section FetchResult.
Context `{Env}.

(** [Asset] always returns.  It returns no error exactly when the request
    could be built, the call was answered, the body was read, the code is
    below 400 (so 1xx and 3xx count as success) and the body decodes; the
    asset is then the entry "asset" of the decoded object, or the zero
    [Asset] when the object has no such entry.  With an error the asset is
    the zero [Asset]. *)
Theorem Asset_result (t : ThemeClient) (filename : string) (w : World) :
  let path := (AssetPath (config t) +:+ "?fields=key,attachment,value")
              +:+ "&asset[key]=" +:+ filename in
  let req := AddHeaders (config t) (mkRequest "GET" path [] None) in
  exists (a : Asset) (e : option error) (w' : World),
    ThemeClient_Asset t filename w = Ret (a, e) w' /\
    (e <> None -> a = zeroAsset) /\
    (e = None <->
     exists (resp : Response) (m : gmap string Asset),
       url_Parse_error path = None /\
       client_Do (client t) (trace w) req = inl resp /\
       Response_BodyErr resp = None /\
       StatusCode resp < 400 /\
       json_Unmarshal_asset (Response_Body resp) = inl m /\
       a = default zeroAsset (m !! "asset")).
Proof.
  intros path req.
  destruct (url_Parse_error path) as [msg|] eqn:Hu.
  { unfold ThemeClient_Asset, bind, query. fold path.
    rewrite (http_NewRequest_fails _ _ _ _ Hu). simpl.
    eexists _, _, _. split; [reflexivity|]. split; [done|].
    split; [done|]. intros (resp & m & Hu' & _). congruence. }
  unfold ThemeClient_Asset, bind. rewrite query_request by exact Hu.
  fold path req.
  destruct (client_Do (client t) (trace w) req) as [resp|msg] eqn:Hdo; simpl.
  2:{ eexists _, _, _. split; [reflexivity|]. split; [done|].
      split; [done|]. by intros (resp & m & _ & Hdo' & _). }
  destruct (Response_BodyErr resp) as [msg|] eqn:Hb; simpl.
  { eexists _, _, _. split; [reflexivity|]. split; [done|].
    split; [done|]. intros (resp' & m & _ & Hdo' & Hb' & _).
    injection Hdo' as <-. congruence. }
  destruct (Z.leb_spec 400 (StatusCode resp)) as [Hc|Hc].
  { eexists _, _, _. split; [reflexivity|]. split; [done|].
    split; [done|]. intros (resp' & m & _ & Hdo' & _ & Hc' & _).
    injection Hdo' as <-. lia. }
  destruct (json_Unmarshal_asset (Response_Body resp)) as [m|msg] eqn:Hd.
  - eexists _, _, _. split; [reflexivity|]. split; [done|].
    split; [|done]. intros _. by exists resp, m.
  - eexists _, _, _. split; [reflexivity|]. split; [done|].
    split; [done|]. intros (resp' & m & _ & Hdo' & _ & _ & Hd' & _).
    injection Hdo' as <-. congruence.
Qed.

End FetchResult.

(** ** The footprint of dispatch *)

Section Footprint.
Context `{Env}.

(** The trace [Perform] leaves. *)
Lemma Perform_trace (t : ThemeClient) (asset : AssetEvent) (w : World) :
  exists (m : ThemeEvent) (w' : World),
    Perform t asset w = Ret m w' /\
    buckets w' = buckets w /\
    trace w'
    = trace w ++
      (if MatchesFilter (filter t) (Key (AssetEvent_Asset asset)) then []
       else match url_Parse_error (AssetPath (config t)) with
            | Some _ => []
            | None => [EDo (Perform_request t asset)]
            end).
Proof.
  unfold Perform. destruct (MatchesFilter _ _).
  - exists NoOpEvent, w. by rewrite app_nil_r.
  - unfold request, bind, ret, http_NewRequest.
    destruct (url_Parse_error (AssetPath (config t))).
    + eexists _, w. by rewrite app_nil_r.
    + by eexists _, _.
Qed.

(** Whatever the event and the remote end, [Perform] returns, touches no
    limiter, and does nothing but at most one call: none for an ignored
    event (the only case with a no-op result) and none when the request
    cannot be built, else exactly the call [Perform_request], sent to the
    asset path with the configured headers and the encoded asset, whose
    method is PUT for an Update, DELETE for a Remove and empty for any other
    event type. *)
Theorem Perform_footprint (t : ThemeClient) (asset : AssetEvent) (w : World) :
  exists (m : ThemeEvent) (w' : World),
    Perform t asset w = Ret m w' /\
    buckets w' = buckets w /\
    (m = NoOpEvent <-> MatchesFilter (filter t) (Key (AssetEvent_Asset asset)) = true) /\
    trace w'
    = trace w ++
      (if MatchesFilter (filter t) (Key (AssetEvent_Asset asset)) then []
       else match url_Parse_error (AssetPath (config t)) with
            | Some _ => []
            | None => [EDo (Perform_request t asset)]
            end) /\
    URL (Perform_request t asset) = AssetPath (config t) /\
    Header (Perform_request t asset) = config_Headers (config t) /\
    (AssetEvent_Type asset <> Update -> AssetEvent_Type asset <> Remove ->
     Method (Perform_request t asset) = "").
Proof.
  unfold Perform. destruct (MatchesFilter _ _) eqn:Hm.
  - exists NoOpEvent, w. simpl. rewrite app_nil_r. repeat split; try done.
    unfold Perform_request, Perform_verb. simpl. intros H1 H2.
    by rewrite !decide_False.
  - unfold request, bind, ret, http_NewRequest.
    destruct (url_Parse_error (AssetPath (config t))) as [msg|].
    + eexists _, w. simpl. rewrite app_nil_r. repeat split; try done.
      unfold Perform_request, Perform_verb. simpl. intros H1 H2.
      by rewrite !decide_False.
    + eexists _, _. unfold Do. split; [reflexivity|]. simpl.
      repeat split; try done.
      unfold Perform_request, Perform_verb. simpl. intros H1 H2.
      by rewrite !decide_False.
Qed.


(** With an asset path that parses, [Process] makes one call per event the
    filter lets through, in input order, and none for the others; it does
    nothing else to the world. *)
Theorem Process_calls (t : ThemeClient) (events : list AssetEvent)
    (closed : bool) (w : World) :
  url_Parse_error (AssetPath (config t)) = None ->
  exists (ops : list Process_op) (w' : World),
    Process t events closed w = Ret ops w' /\
    buckets w' = buckets w /\
    trace w' = trace w ++ (EDo ∘ Perform_request t <$> dispatched t events).
Proof.
  intros Hu. revert w. induction events as [|job events IH]; intros w.
  - simpl. destruct closed; eexists _, w; by rewrite app_nil_r.
  - destruct (Perform_trace t job w) as (m & w1 & Hm & Hb & Htr).
    rewrite Hu in Htr.
    destruct (IH w1) as (ops & w' & Hrun & Hb' & Htr').
    exists (SendMessage m :: ops), w'. simpl. unfold bind. rewrite Hm, Hrun.
    split; [done|]. split; [congruence|].
    rewrite Htr', Htr. unfold dispatched. rewrite filter_cons.
    destruct (MatchesFilter (filter t) (Key (AssetEvent_Asset job))) eqn:Hmatch.
    + rewrite decide_False by done. by rewrite app_nil_r.
    + rewrite decide_True by done. simpl. by rewrite <- (assoc_L (++)).
Qed.

End Footprint.

(** The shop is sent an ignored update, an update and a removal: two calls. *)
Lemma Process_calls_witness :
  exists (ops : list Process_op) (w' : World),
    @Process (scenario (always 200 "")) (shop_client "shop.example")
      [config_update; style_update; style_remove] true fresh_world
    = Ret ops w' /\
    Method <$> calls (trace w') = ["PUT"; "DELETE"].
Proof.
  destruct (@Process_calls (scenario (always 200 "")) (shop_client "shop.example")
              [config_update; style_update; style_remove] true fresh_world)
    as (ops & w' & Hrun & _ & Htr).
  - reflexivity.
  - exists ops, w'. split; [exact Hrun|]. rewrite Htr. reflexivity.
Defined.

(** ** Theme creation, whatever the remote end does *)

Section Retries.
Context `{Env}.

Lemma CreateTheme_attempts_done (fuel : nat) (t : ThemeClient) (path : string)
    (data : bytes) (r : Z) (ready : bool) (ev : APIThemeEvent) (w : World) :
  (r <? CreateThemeMaxRetries) && negb ready = false ->
  CreateTheme_attempts fuel t path data r ready ev w = Ret (r, ev) w.
Proof. intros Hc. destruct fuel; simpl; by rewrite Hc. Qed.

(** The loop of attempts, from [retries = r] on. *)
Lemma CreateTheme_attempts_events (fuel : nat) (t : ThemeClient) (path : string)
    (data : bytes) (r : Z) (ev0 : APIThemeEvent) (w : World)
    (rt : Z) (e : APIThemeEvent) (w' : World) :
  let req := AddHeaders (config t) (mkRequest "POST" path [] (Some data)) in
  0 <= r < CreateThemeMaxRetries ->
  CreateTheme_attempts fuel t path data r false ev0 w = Ret (rt, e) w' ->
  exists events : list APIThemeEvent,
    last events = Some e /\
    Z.of_nat (length events) <= CreateThemeMaxRetries - r /\
    (forall i ev, events !! i = Some ev -> (S i < length events)%nat ->
                  Successful ev = false) /\
    trace w' = trace w ++ attempts_trace req events /\
    buckets w' = buckets w /\
    ((Successful e = true /\ rt < CreateThemeMaxRetries) \/
     (Successful e = false /\ rt = CreateThemeMaxRetries /\
      Z.of_nat (length events) = CreateThemeMaxRetries - r)).
Proof.
  intros req. revert r ev0 w.
  induction fuel as [|fuel IH]; intros r ev0 w Hr Hrun; simpl in Hrun;
    rewrite (proj2 (Z.ltb_lt _ _) (proj2 Hr)) in Hrun; simpl in Hrun; [done|].
  unfold bind at 1, sendData, http_NewRequest in Hrun.
  destruct (url_Parse_error path); [done|].
  unfold bind at 1, Do, ret in Hrun. fold req in Hrun.
  set (e1 := NewAPIThemeEvent (answer (client t) (trace w) req)) in *.
  destruct (Successful e1) eqn:Hs; simpl in Hrun; unfold bind, emit in Hrun;
    simpl in Hrun.
  - rewrite CreateTheme_attempts_done in Hrun by (by rewrite andb_false_r).
    injection Hrun as <- <- <-. exists [e1]. simpl.
    split; [done|]. split; [unfold CreateThemeMaxRetries in *; lia|].
    split; [intros i ev _ Hi; lia|]. split; [by rewrite <- (assoc_L (++))|].
    split; [done|]. left. split; [done | lia].
  - destruct (Z.ltb_spec (r + 1) CreateThemeMaxRetries) as [Hlt|Hge].
    + apply IH in Hrun as (events & Hlast & Hlen & Hfail & Htr & Hb & Hend); [|lia].
      exists (e1 :: events). split.
      { rewrite last_cons, Hlast. done. }
      split; [simpl length; lia|]. split.
      { intros [|i] ev Hi Hlt'; simpl in Hi, Hlt'.
        - by injection Hi as <-.
        - apply (Hfail i ev Hi). lia. }
      split.
      { rewrite Htr. simpl. unfold attempts_trace. simpl.
        by rewrite <- !(assoc_L (++)). }
      split; [done|].
      destruct Hend as [Hend|(He & Hrt & Hl)]; [by left|].
      right. split; [done|]. split; [done|]. simpl length. lia.
    + rewrite CreateTheme_attempts_done in Hrun.
      2:{ rewrite (proj2 (Z.ltb_ge _ _) Hge). done. }
      injection Hrun as <- <- <-. exists [e1]. simpl.
      split; [done|]. split; [unfold CreateThemeMaxRetries in *; lia|].
      split; [intros i ev _ Hi; lia|]. split; [by rewrite <- (assoc_L (++))|].
      split; [done|]. right. split; [done|].
      unfold CreateThemeMaxRetries in *. lia.
Qed.


(** Whenever the creation phase of [CreateTheme] returns, it has made
    between one and three attempts, each the same POST and each logged; every
    attempt but the last was unsuccessful, so it stops at the first success;
    it returns the event of the last attempt, and it has notified the error
    naming the archive location exactly when that last attempt, then the
    third, was unsuccessful too.  It does nothing else. *)
Theorem CreateTheme_bounded_retries (fuel : nat) (t : ThemeClient)
    (name zipLocation : string) (w : World) (e : APIThemeEvent) (w' : World) :
  let path := AdminUrl (config t) +:+ "/themes.json" in
  let data := json_Marshal_theme
                {[ "theme" := mkTheme name zipLocation "unpublished" 0 false ]} in
  let req := AddHeaders (config t) (mkRequest "POST" path [] (Some data)) in
  CreateTheme_themeEvent fuel t name zipLocation w = Ret e w' ->
  exists events : list APIThemeEvent,
    last events = Some e /\
    (1 <= length events <= 3)%nat /\
    (forall i ev, events !! i = Some ev -> (S i < length events)%nat ->
                  Successful ev = false) /\
    (Successful e = false -> length events = 3%nat) /\
    buckets w' = buckets w /\
    trace w'
    = trace w ++ attempts_trace req events
      ++ (if Successful e then [] else [retries_exhausted zipLocation]).
Proof.
  intros path data req Hrun. unfold CreateTheme_themeEvent in Hrun.
  fold path data in Hrun. unfold bind at 1 in Hrun.
  destruct (CreateTheme_attempts _ _ _ _ _ _ _ _) as [[rt e'] w1|w1|w1] eqn:Hloop;
    [|done|done].
  apply CreateTheme_attempts_events in Hloop
    as (events & Hlast & Hlen & Hfail & Htr & Hb & Hend);
    [|unfold CreateThemeMaxRetries; lia].
  fold req in Htr. simpl in Hrun.
  assert (Hne : (1 <= length events)%nat).
  { destruct events; [done | simpl; lia]. }
  exists events.
  destruct Hend as [(Hs & Hrt)|(Hs & Hrt & Hl)].
  - rewrite (proj2 (Z.leb_gt _ _) Hrt) in Hrun. unfold bind, ret in Hrun.
    injection Hrun as <- <-. rewrite Hs, app_nil_r.
    split; [done|]. split; [unfold CreateThemeMaxRetries in *; lia|].
    split; [done|]. split; [congruence|]. done.
  - rewrite Hrt in Hrun. simpl in Hrun. unfold bind, ret, NotifyError, emit in Hrun.
    injection Hrun as <- <-. rewrite Hs. simpl.
    split; [done|]. split; [unfold CreateThemeMaxRetries in *; lia|].
    split; [done|]. split; [intros _; unfold CreateThemeMaxRetries in *; lia|].
    split; [done|]. rewrite Htr. by rewrite <- (assoc_L (++)).
Qed.


End Retries.

(** A remote end that creates the theme at the first attempt: one POST, no
    notification. *)
Lemma CreateTheme_bounded_retries_witness :
  exists events : list APIThemeEvent,
    last events = Some (mkAPIThemeEvent 201 7 false) /\
    (1 <= length events <= 3)%nat /\
    [EDo (mkRequest "POST" "https://shop.example/admin/themes.json"
            [("X-Shopify-Access-Token", "token")] (Some "theme Timber-master"));
     EGo_logEvent (mkAPIThemeEvent 201 7 false)]
    = attempts_trace
        (mkRequest "POST" "https://shop.example/admin/themes.json"
           [("X-Shopify-Access-Token", "token")] (Some "theme Timber-master"))
        events.
Proof.
  destruct (@CreateTheme_bounded_retries (scenario warming_up) 3
              (shop_client "shop.example") "Timber-master"
              "https://github.com/Shopify/Timber/archive/master.zip"
              fresh_world (mkAPIThemeEvent 201 7 false)
              (mkWorld
                 [EDo (mkRequest "POST" "https://shop.example/admin/themes.json"
                         [("X-Shopify-Access-Token", "token")]
                         (Some "theme Timber-master"));
                  EGo_logEvent (mkAPIThemeEvent 201 7 false)] ∅))
    as (events & Hlast & Hlen & _ & _ & _ & Htr).
  - reflexivity.
  - exists events. split; [exact Hlast|]. split; [exact Hlen|].
    simpl in Htr. rewrite app_nil_r in Htr. exact Htr.
Defined.

Section Handshake.
Context `{Env}.



End Handshake.


(** ** Strings, continued *)

Lemma append_assoc (a b c : string) : (a +:+ b) +:+ c = a +:+ (b +:+ c).
Proof.
  induction a as [|x a IH]; [done|]. rewrite !append_String. by f_equal.
Qed.

Lemma append_empty_r (a : string) : a +:+ "" = a.
Proof. induction a as [|x a IH]; [done|]. rewrite append_String. by f_equal. Qed.

Lemma length_append (a b : string) :
  String.length (a +:+ b) = (String.length a + String.length b)%nat.
Proof. induction a as [|x a IH]; [done|]. rewrite append_String. simpl. by f_equal. Qed.

Lemma substring_of_append (a b pre post : string) :
  substring_of a b -> substring_of a (pre +:+ b +:+ post).
Proof.
  intros (p & q & ->). exists (pre +:+ p), (q +:+ post).
  by rewrite !append_assoc.
Qed.

Lemma substring_of_middle (a pre post : string) : substring_of a (pre +:+ a +:+ post).
Proof. by exists pre, post. Qed.

Lemma append_inj_r (a b c : string) : a +:+ c = b +:+ c -> a = b.
Proof.
  revert b. induction a as [|x a IH]; intros [|y b] Heq; [done| | |].
  - apply (f_equal String.length) in Heq. rewrite append_empty in Heq.
    rewrite length_append in Heq. simpl in Heq. lia.
  - apply (f_equal String.length) in Heq. rewrite append_empty in Heq.
    rewrite length_append in Heq. simpl in Heq. lia.
  - rewrite !append_String in Heq. injection Heq as -> Heq. f_equal. by apply IH.
Qed.

(** ** Console colours *)

(** The colour helpers lose nothing and never collide: each is injective,
    texts of different colours are different, and the coloured text holds
    the text it was given between the escape sequences. *)
Theorem colours_injective (s s' : string) :
  (RedText s = RedText s' -> s = s') /\
  (YellowText s = YellowText s' -> s = s') /\
  (BlueText s = BlueText s' -> s = s') /\
  RedText s <> YellowText s' /\
  RedText s <> BlueText s' /\
  YellowText s <> BlueText s' /\
  substring_of s (RedText s) /\
  substring_of s (YellowText s) /\
  substring_of s (BlueText s) /\
  String.length (RedText s) = (String.length s + 9)%nat.
Proof.
  unfold RedText, YellowText, BlueText.
  assert (Hinj : forall c : string,
            ESC +:+ c +:+ s +:+ ESC +:+ "[0m" = ESC +:+ c +:+ s' +:+ ESC +:+ "[0m" ->
            s = s').
  { intros c Heq. apply (inj (String.app ESC)) in Heq.
    apply (inj (String.app c)) in Heq. by apply append_inj_r in Heq. }
  split; [apply Hinj|]. split; [apply Hinj|]. split; [apply Hinj|].
  split; [discriminate|]. split; [discriminate|]. split; [discriminate|].
  split; [apply (substring_of_middle s (ESC +:+ "[31m"))
         || (rewrite <- append_assoc; apply substring_of_middle)|].
  split; [rewrite <- append_assoc; apply substring_of_middle|].
  split; [rewrite <- append_assoc; apply substring_of_middle|].
  rewrite !length_append. simpl. lia.
Qed.

(** ** Bootstrap: picking the archive *)

Lemma findReleaseWith_loop_Some (entries : list Entry) (version : string) (entry : Entry) :
  findReleaseWith_loop entries version = Some entry <->
  exists i, entries !! i = Some entry /\ Title entry = version /\
            forall j x, (j < i)%nat -> entries !! j = Some x -> Title x <> version.
Proof.
  induction entries as [|y entries IH]; simpl.
  - split; [done | by intros (i & Hi & _)].
  - destruct (decide (Title y = version)) as [Hy|Hy].
    + split.
      * intros [= <-]. exists 0%nat. split; [done|]. split; [done|]. intros j x Hj. lia.
      * intros ([|i] & Hi & Ht & Hfirst); simpl in Hi; [congruence|].
        exfalso. apply (Hfirst 0%nat y); [lia | done | done].
    + rewrite IH. split.
      * intros (i & Hi & Ht & Hfirst). exists (S i). split; [done|]. split; [done|].
        intros [|j] x Hj Hx; simpl in Hx; [congruence|]. apply (Hfirst j x); [lia|done].
      * intros ([|i] & Hi & Ht & Hfirst); simpl in Hi; [congruence|].
        exists i. split; [done|]. split; [done|].
        intros j x Hj Hx. apply (Hfirst (S j) x); [lia|done].
Qed.

Lemma findReleaseWith_loop_None (entries : list Entry) (version : string) :
  findReleaseWith_loop entries version = None <->
  forall x, x ∈ entries -> Title x <> version.
Proof.
  induction entries as [|y entries IH]; simpl.
  - split; [intros _ x Hx; by apply elem_of_nil in Hx | done].
  - destruct (decide (Title y = version)) as [Hy|Hy].
    + split; [done|]. intros Hall. exfalso. apply (Hall y); [by left | done].
    + rewrite IH. split.
      * intros Hall x [->|Hx]%elem_of_cons; [done | by apply Hall].
      * intros Hall x Hx. apply Hall. by right.
Qed.

Section Releases.
Context `{FeedReader}.

(** [findReleaseWith] accepts a version exactly when it is "latest" or the
    title of an entry of the feed.  For "latest" it returns the feed's
    latest entry without looking at the titles; for a title it returns the
    first entry that bears it; otherwise it returns the entry titled
    "Invalid Feed" together with the error that lists the versions. *)
Theorem findReleaseWith_result (feed : Feed) (version : string) :
  (version = LatestRelease ->
   findReleaseWith feed version = (LatestEntry feed, None)) /\
  (version <> LatestRelease ->
   ((findReleaseWith feed version).2 = None <->
    exists x, x ∈ Entries feed /\ Title x = version) /\
   ((findReleaseWith feed version).2 = None ->
    exists i, Entries feed !! i = Some (findReleaseWith feed version).1 /\
              Title (findReleaseWith feed version).1 = version /\
              forall j x, (j < i)%nat -> Entries feed !! j = Some x ->
                          Title x <> version) /\
   ((findReleaseWith feed version).2 <> None ->
    findReleaseWith feed version
    = (mkEntry "Invalid Feed", Some (buildInvalidVersionError feed version)))).
Proof.
  unfold findReleaseWith. split.
  - intros ->. by rewrite decide_True.
  - intros Hv. rewrite decide_False by done.
    destruct (findReleaseWith_loop (Entries feed) version) as [entry|] eqn:Hloop; simpl.
    + apply findReleaseWith_loop_Some in Hloop as (i & Hi & Ht & Hfirst).
      split; [|split; [|done]].
      * split; [|done]. intros _. exists entry. split; [|done].
        apply list_elem_of_lookup. by exists i.
      * intros _. by exists i.
    + split; [|split; [done|done]].
      split; [done|]. intros (x & Hx & Ht). exfalso.
      by apply (proj1 (findReleaseWith_loop_None _ _) Hloop x).
Qed.

End Releases.

(** The lines [buildInvalidVersionError] writes for the entries. *)
Lemma version_lines (entries : list Entry) (buff : string) :
  foldl (fun b entry => b +:+ (LF +:+ "  - " +:+ Title entry)) buff entries
  = buff +:+ foldr (fun entry rest => (LF +:+ "  - " +:+ Title entry) +:+ rest)
                   "" entries.
Proof.
  revert buff. induction entries as [|x entries IH]; intros buff; simpl.
  - by rewrite append_empty_r.
  - rewrite IH. by rewrite !append_assoc.
Qed.

Lemma version_line_listed (entries : list Entry) (x : Entry) :
  x ∈ entries ->
  substring_of (LF +:+ "  - " +:+ Title x)
    (foldr (fun entry rest => (LF +:+ "  - " +:+ Title entry) +:+ rest) "" entries).
Proof.
  induction entries as [|y entries IH]; intros Hx; [by apply elem_of_nil in Hx|].
  apply elem_of_cons in Hx as [->|Hx]; simpl.
  - exists "", (foldr (fun entry rest => (LF +:+ "  - " +:+ Title entry) +:+ rest)
                      "" entries).
    by rewrite append_empty.
  - destruct (IH Hx) as (p & q & Hpq).
    exists ((LF +:+ "  - " +:+ Title y) +:+ p), q. rewrite Hpq.
    by rewrite !append_assoc.
Qed.

(** The message of [buildInvalidVersionError] begins with the rejected
    version in red, then lists master and latest, then has one line per
    entry of the feed, in feed order and nothing after them; so it names
    the rejected version and every release title of the feed. *)
Theorem buildInvalidVersionError_message (feed : Feed) (version : string) :
  Error (buildInvalidVersionError feed version)
  = RedText ("Invalid Timber Version: " +:+ version)
    +:+ (LF +:+ "Available Versions Are:")
    +:+ (LF +:+ "  - master")
    +:+ (LF +:+ "  - latest")
    +:+ foldr (fun entry rest => (LF +:+ "  - " +:+ Title entry) +:+ rest)
              "" (Entries feed) /\
  substring_of version (Error (buildInvalidVersionError feed version)) /\
  forall x, x ∈ Entries feed ->
    substring_of (LF +:+ "  - " +:+ Title x)
                 (Error (buildInvalidVersionError feed version)).
Proof.
  assert (Hmsg : Error (buildInvalidVersionError feed version)
    = RedText ("Invalid Timber Version: " +:+ version)
      +:+ (LF +:+ "Available Versions Are:")
      +:+ (LF +:+ "  - master")
      +:+ (LF +:+ "  - latest")
      +:+ foldr (fun entry rest => (LF +:+ "  - " +:+ Title entry) +:+ rest)
                "" (Entries feed)).
  { unfold buildInvalidVersionError, Error. rewrite version_lines.
    rewrite append_empty. by rewrite !append_assoc. }
  split; [exact Hmsg|]. rewrite Hmsg. split.
  - unfold RedText.
    exists (ESC +:+ "[31m" +:+ "Invalid Timber Version: "),
           ((ESC +:+ "[0m")
            +:+ (LF +:+ "Available Versions Are:")
            +:+ (LF +:+ "  - master")
            +:+ (LF +:+ "  - latest")
            +:+ foldr (fun entry rest => (LF +:+ "  - " +:+ Title entry) +:+ rest)
                      "" (Entries feed)).
    by rewrite !append_assoc.
  - intros x Hx.
    pose proof (version_line_listed (Entries feed) x Hx) as Hline.
    destruct Hline as (p & q & ->).
    exists (RedText ("Invalid Timber Version: " +:+ version)
            +:+ (LF +:+ "Available Versions Are:")
            +:+ (LF +:+ "  - master")
            +:+ (LF +:+ "  - latest") +:+ p), q.
    by rewrite !append_assoc.
Qed.

Section Archive.
Context `{Env} `{FeedReader}.

(** [zipPathForVersion] always returns, with the empty path whenever it
    returns an error.  For "master" it answers from the constant alone: no
    call, no feed, no error.  For any other version it does nothing but
    fetch the release feed with one GET (none if the feed URL does not
    parse); and when it accepts a version other than "latest", the archive
    it names is the one of that very version. *)
Theorem zipPathForVersion_result (version : string) (w : World) :
  exists (p : string) (e : option error) (w' : World),
    zipPathForVersion version w = Ret (p, e) w' /\
    buckets w' = buckets w /\
    (e <> None -> p = "") /\
    (version = MasterBranch ->
     p = "https://github.com/Shopify/Timber/archive/master.zip" /\
     e = None /\ w' = w) /\
    (version <> MasterBranch ->
     trace w'
     = trace w ++ match url_Parse_error TimberFeedPath with
                  | Some _ => []
                  | None => [EDo (mkRequest "GET" TimberFeedPath [] None)]
                  end) /\
    (version <> MasterBranch -> version <> LatestRelease -> e = None ->
     p = zipPath version).
Proof.
  unfold zipPathForVersion. destruct (decide (version = MasterBranch)) as [->|Hm].
  { eexists _, _, w. split; [reflexivity|]. repeat split; done. }
  unfold bind at 1, downloadAtomFeed, bind at 1, http_Get, http_NewRequest.
  destruct (url_Parse_error TimberFeedPath) as [msg|]; simpl.
  { eexists _, _, _. split; [reflexivity|]. rewrite app_nil_r.
    repeat split; done. }
  unfold Do, ret.
  destruct (answer (mkClient None) (trace w) _) as [resp|e]; simpl.
  2:{ eexists _, _, _. split; [reflexivity|]. repeat split; done. }
  destruct (LoadFeed resp) as [feed|msg]; simpl.
  2:{ eexists _, _, _. split; [reflexivity|]. repeat split; done. }
  unfold findReleaseWith.
  destruct (decide (version = LatestRelease)) as [Hl|Hl]; simpl.
  { eexists _, _, _. split; [reflexivity|]. repeat split; done. }
  destruct (findReleaseWith_loop (Entries feed) version) as [entry|] eqn:Hloop; simpl.
  2:{ eexists _, _, _. split; [reflexivity|]. repeat split; done. }
  eexists _, _, _. split; [reflexivity|]. simpl.
  split; [done|]. split; [done|]. split; [done|]. split; [done|].
  intros _ _ _. apply findReleaseWith_loop_Some in Hloop as (i & _ & Ht & _).
  by rewrite Ht.
Qed.

End Archive.

(** ** Local assets *)

Lemma remove_from_skip (old pre rest : string) :
  remove_from old (pre +:+ rest) (String.length pre) = remove_from old rest 0.
Proof.
  induction pre as [|c pre IH]; [done|]. rewrite append_String. simpl. exact IH.
Qed.

Lemma remove_from_prefix (c : Ascii.ascii) (o rest : string) :
  remove_from (String c o) (String c o +:+ rest) 0 = remove_from (String c o) rest 0.
Proof.
  rewrite append_String. cbn [remove_from].
  replace (HasPrefix (String c (o +:+ rest)) (String c o)) with true.
  - replace (String.length (String c o) - 1)%nat with (String.length o)
      by (simpl; lia).
    apply remove_from_skip.
  - symmetry. apply HasPrefix_spec. exists rest. by rewrite append_String.
Qed.

Lemma remove_from_absent (old s : string) :
  Contains s old = false -> remove_from old s 0 = s.
Proof.
  induction s as [|c s IH]; [done|]. cbn [Contains remove_from].
  destruct (HasPrefix (String c s) old); [done|]. intros Hc. f_equal. by apply IH.
Qed.

Lemma omap_length_le {A B} (f : A -> option B) (l : list A) :
  (length (omap f l) <= length l)%nat.
Proof.
  induction l as [|x l IH]; [done|]. cbn [omap list_omap length].
  destruct (f x); cbn [length]; lia.
Qed.

Section Local.
Context `{FileSystem}.

(** [LocalAssets] goes through the files [filepath.Glob] lists under
    [dir/**/*], in that order: a file whose path the filter matches is left
    out, a file [LoadAsset] cannot load is left out without a word, every
    other file gives one asset; so there are never more assets than files.
    The key handed to [LoadAsset] is the path with every occurrence of
    [dir/] deleted: for a path [dir/rest] in which [dir/] does not occur
    again, it is [rest]. *)
Theorem LocalAssets_loaded (t : ThemeClient) (dir : string) :
  let dir' := dir +:+ String Separator "" in
  let files := filepath_Glob (dir' +:+ "**" +:+ String Separator "" +:+ "*") in
  LocalAssets t dir
  = omap (fun file =>
            if MatchesFilter (filter t) file then None
            else match LoadAsset dir' (strings_Replace_removing file dir') with
                 | inl asset => Some asset
                 | inr _ => None
                 end)
         files /\
  (length (LocalAssets t dir) <= length files)%nat /\
  (forall rest, Contains rest dir' = false ->
                strings_Replace_removing (dir' +:+ rest) dir' = rest).
Proof.
  intros dir' files.
  assert (Hfold : forall acc l,
    foldl (fun assets file =>
             if negb (MatchesFilter (filter t) file) then
               match LoadAsset dir' (strings_Replace_removing file dir') with
               | inl asset => assets ++ [asset]
               | inr _ => assets
               end
             else assets) acc l
    = acc ++ omap (fun file =>
                     if MatchesFilter (filter t) file then None
                     else match LoadAsset dir' (strings_Replace_removing file dir') with
                          | inl asset => Some asset
                          | inr _ => None
                          end) l).
  { intros acc l. revert acc. induction l as [|file l IH]; intros acc; simpl.
    - by rewrite app_nil_r.
    - rewrite IH. destruct (MatchesFilter (filter t) file); simpl; [done|].
      destruct (LoadAsset _ _); simpl; [|done]. by rewrite <- (assoc_L (++)). }
  assert (Heq : LocalAssets t dir
                = omap (fun file =>
                          if MatchesFilter (filter t) file then None
                          else match LoadAsset dir' (strings_Replace_removing file dir') with
                               | inl asset => Some asset
                               | inr _ => None
                               end) files).
  { unfold LocalAssets. fold dir' files. by rewrite Hfold. }
  split; [exact Heq|]. split.
  - rewrite Heq. apply omap_length_le.
  - intros rest Hrest. unfold strings_Replace_removing.
    destruct dir' as [|c o] eqn:Hd.
    { subst dir'. destruct dir; discriminate Hd. }
    rewrite remove_from_prefix. by apply remove_from_absent.
Qed.

End Local.

(** A directory name that comes back further down the path is deleted there
    as well. *)
Example strings_Replace_removing_twice :
  strings_Replace_removing "theme/assets/theme/x.css" "theme/" = "assets/x.css".
Proof. reflexivity. Qed.

(** ** Bootstrap: the command *)

Section Command.
Context `{Env} `{FeedReader} `{Shell}.

(** When the version is rejected (the feed cannot be fetched or read, or
    has no such release), [doBootstrap] notifies the error and returns a
    closed channel, so [Bootstrap] signals [false]; no theme is created, no
    configuration is written, no download is started; and the working
    directory, if it was changed to the target directory, is not changed
    back. *)
Theorem doBootstrap_rejected (fuel : nat) (options : BootstrapOptions)
    (s : Session) (p : string) (e : error) (w1 : World) :
  zipPathForVersion (Version options) (world s) = Ret (p, Some e) w1 ->
  let entered := bool_decide (cwd s <> Directory options) in
  let s' := mkSession
              (mkWorld (trace w1 ++ [ENotifyError e]) (buckets w1))
              (if entered && chdir_ok (Directory options)
               then Directory options else cwd s)
              (shell s ++ if entered then [SChdir (Directory options)] else []) in
  doBootstrap fuel options s = CRet ClosedEmpty s' /\
  Bootstrap fuel options s = CRet (Delivers false) s'.
Proof.
  intros Hzip entered s'.
  assert (Hdo : doBootstrap fuel options s = CRet ClosedEmpty s').
  { unfold doBootstrap, cbind, os_Getwd. subst s' entered.
    destruct (decide (cwd s <> Directory options)) as [Hd|Hd].
    - rewrite bool_decide_eq_true_2 by done. unfold os_Chdir, in_world. simpl.
      rewrite Hzip. simpl. reflexivity.
    - rewrite bool_decide_eq_false_2 by done. unfold cret, in_world. simpl.
      rewrite Hzip. simpl. rewrite app_nil_r. reflexivity. }
  split; [exact Hdo|]. unfold Bootstrap, cbind. by rewrite Hdo.
Qed.

(** When the version is accepted and [CreateTheme] returns, [doBootstrap]
    has created the theme under the name "Timber-<version>", with
    "<prefix>-" before it for a non-empty prefix, from the archive
    [zipPathForVersion] named; it then merges the events, writes the
    configuration of the new client only if [SetThemeId] is set, changes
    back to the directory it started in, and starts the download with the
    new client, whose channel it returns and [Bootstrap] forwards. *)
Theorem doBootstrap_accepted (fuel : nat) (options : BootstrapOptions)
    (s : Session) (p : string) (w1 w2 : World) (t' : ThemeClient) :
  zipPathForVersion (Version options) (world s) = Ret (p, None) w1 ->
  CreateTheme fuel (Client options)
    ((if decide (Prefix options = "") then "" else Prefix options +:+ "-")
     +:+ "Timber-" +:+ Version options) p w1 = Ret t' w2 ->
  let entered := bool_decide (cwd s <> Directory options) in
  let s' := mkSession w2
              (if chdir_ok (cwd s) then cwd s
               else if entered && chdir_ok (Directory options)
                    then Directory options else cwd s)
              (shell s
               ++ (if entered then [SChdir (Directory options)] else [])
               ++ [SMergeEvents]
               ++ (if SetThemeId options
                   then [SAddConfiguration (Directory options) (Environment options)
                           (GetConfiguration t')]
                   else [])
               ++ [SChdir (cwd s); SDownload t']) in
  doBootstrap fuel options s = CRet (Download t') s' /\
  Bootstrap fuel options s = CRet (forwarded (Download t')) s'.
Proof.
  intros Hzip Hcreate entered s'.
  assert (Hname : Bootstrap_name options
                  = (if decide (Prefix options = "") then "" else Prefix options +:+ "-")
                    +:+ "Timber-" +:+ Version options).
  { unfold Bootstrap_name. destruct (Prefix options) as [|c pre]; [done|].
    simpl. rewrite !append_String. f_equal. by rewrite append_assoc. }
  assert (Hdo : doBootstrap fuel options s = CRet (Download t') s').
  { unfold doBootstrap, cbind, os_Getwd. subst s' entered. rewrite Hname.
    destruct (decide (cwd s <> Directory options)) as [Hd|Hd].
    - rewrite bool_decide_eq_true_2 by done. unfold os_Chdir, in_world. simpl.
      rewrite Hzip. simpl. rewrite Hcreate. unfold record, cret. simpl.
      destruct (SetThemeId options); unfold record, cret; simpl;
        rewrite <- !(assoc_L (++)); simpl; destruct (chdir_ok (cwd s)); reflexivity.
    - rewrite bool_decide_eq_false_2 by done. unfold cret, in_world. simpl.
      rewrite Hzip. simpl. rewrite Hcreate. unfold record, cret. simpl.
      destruct (SetThemeId options); unfold record, cret, os_Chdir; simpl;
        rewrite <- !(assoc_L (++)); simpl; destruct (chdir_ok (cwd s)); reflexivity. }
  split; [exact Hdo|]. unfold Bootstrap, cbind. by rewrite Hdo.
Qed.

End Command.

(** A release the feed does not have: [Bootstrap] signals [false] and the
    process is left in the target directory. *)
Lemma doBootstrap_rejected_witness :
  exists s' : Session,
    @Bootstrap (scenario (always 200 "")) two_releases obliging_shell 0
      (bootstrap_of "v9.9" "") home_session
    = CRet (Delivers false) s' /\
    cwd s' = "/themes/shop" /\
    shell s' = [SChdir "/themes/shop"] /\
    length (calls (trace (world s'))) = 1%nat.
Proof.
  destruct (@doBootstrap_rejected (scenario (always 200 "")) two_releases
              obliging_shell 0 (bootstrap_of "v9.9" "") home_session ""
              (buildInvalidVersionError (mkFeed [mkEntry "v2.0"; mkEntry "v1.0"]) "v9.9")
              (mkWorld [EDo (mkRequest "GET" TimberFeedPath [] None)] ∅))
    as [_ Hrun].
  - reflexivity.
  - eexists. split; [exact Hrun|]. split; [reflexivity|]. split; reflexivity.
Defined.

(** The master branch with the prefix "acme": the theme is created as
    "acme-Timber-master" and the download starts from the directory the
    command was called in. *)
Lemma doBootstrap_accepted_witness :
  exists s' : Session,
    @Bootstrap (scenario warming_up) two_releases obliging_shell 3
      (bootstrap_of "master" "acme") home_session
    = CRet (Delivers true) s' /\
    cwd s' = "/home" /\
    head (calls (trace (world s')))
    = Some (mkRequest "POST" "https://shop.example/admin/themes.json"
              [("X-Shopify-Access-Token", "token")]
              (Some "theme acme-Timber-master")).
Proof.
  destruct (@doBootstrap_accepted (scenario warming_up) two_releases
              obliging_shell 3 (bootstrap_of "master" "acme") home_session
              "https://github.com/Shopify/Timber/archive/master.zip"
              fresh_world
              (mkWorld
                 [EDo (mkRequest "POST" "https://shop.example/admin/themes.json"
                         [("X-Shopify-Access-Token", "token")]
                         (Some "theme acme-Timber-master"));
                  EGo_logEvent (mkAPIThemeEvent 201 7 false);
                  EDo (mkRequest "GET" "https://shop.example/admin/themes/7.json"
                         [("X-Shopify-Access-Token", "token")] (Some ""));
                  ESleep 250;
                  EDo (mkRequest "GET" "https://shop.example/admin/themes/7.json"
                         [("X-Shopify-Access-Token", "token")] (Some ""));
                  ESleep 250;
                  EDo (mkRequest "GET" "https://shop.example/admin/themes/7.json"
                         [("X-Shopify-Access-Token", "token")] (Some ""))] ∅)
              (@NewThemeClient (scenario warming_up)
                 (set_ThemeId (shop "shop.example") 7)))
    as [_ Hrun].
  - reflexivity.
  - reflexivity.
  - eexists. split; [exact Hrun|]. split; reflexivity.
Defined.

(** ** The shape of a listing *)

Section ListingShape.
Context `{Env}.

(** Whatever the remote end does, the goroutine of [AssetList] makes at
    most one call, the GET of the asset path with the field projection and
    the configured headers (none if that URL does not parse), and then
    follows one of two courses: it reports at most one error, emits the
    results and closes both channels; or it reports at most one error,
    reports the decoding error and stops, emitting nothing and leaving both
    channels open. *)
Theorem AssetList_shape (t : ThemeClient) (w : World) :
  let path := AssetPath (config t) +:+ "?fields=key,attachment,value" in
  let req := AddHeaders (config t) (mkRequest "GET" path [] None) in
  exists (ops : list AssetList_op) (w' : World),
    AssetList t w = Ret ops w' /\
    buckets w' = buckets w /\
    trace w' = trace w ++ match url_Parse_error path with
                          | Some _ => []
                          | None => [EDo req]
                          end /\
    exists pre : list AssetList_op,
      (pre = [] \/ exists e, pre = [SendErr e]) /\
      ((exists emitted, ops = pre ++ (SendResult <$> emitted) ++ [CloseResults; CloseErrs]) \/
       (exists msg, ops = pre ++ [SendErr (GenericError msg)])).
Proof.
  intros path req. unfold AssetList, bind at 1.
  assert (Hq : exists resp w',
             query t (fun p => p) w = Ret resp w' /\ buckets w' = buckets w /\
             trace w' = trace w ++ match url_Parse_error path with
                                   | Some _ => []
                                   | None => [EDo req]
                                   end).
  { unfold query. fold path. unfold http_NewRequest.
    destruct (url_Parse_error path).
    - eexists _, _. split; [reflexivity|]. simpl. by rewrite app_nil_r.
    - unfold bind, Do, ret. fold req.
      destruct (answer (client t) (trace w) req); by eexists _, _. }
  destruct Hq as (resp & w' & -> & Hb & Htr).
  exists (match err resp with Some e => [SendErr e] | None => [] end ++
          match json_Unmarshal_assets (body resp) with
          | inr msg => [SendErr (GenericError msg)]
          | inl assets =>
              (SendResult <$> ignoreCompiledAssets
                 (sort_ByAsset (default [] (assets !! "assets"))))
              ++ [CloseResults; CloseErrs]
          end), w'.
  split; [by destruct (json_Unmarshal_assets (body resp))|].
  split; [done|]. split; [done|].
  exists (match err resp with Some e => [SendErr e] | None => [] end).
  split; [destruct (err resp); eauto|].
  destruct (json_Unmarshal_assets (body resp)) as [assets|msg]; [left | right]; eauto.
Qed.

End ListingShape.
